(** * Scheduler (taskSchedular.cpp): a small-step model and its properties

    The class [Scheduler] of [src/taskSchedular.cpp] guards a counter
    [countJobs] with a [std::mutex] and a [std::condition_variable], and
    runs every job on a detached [std::thread].  The development below
    embeds the constructor and the two member functions statement by
    statement:

    - the object is a record of its data members; the mutex is its owner,
      the condition variable the set of threads blocked in it;
    - every thread has a program counter named after the source line it is
      about to execute; a caller is idle or inside [schedule] or [wait], a
      spawned thread is inside the lambda of lines 59-79;
    - a run is a list of scheduling decisions ([Action]): which thread
      executes its next statement, which waiter a [notify_one] wakes, a
      spurious wake-up, the passing of time; the executable function
      [step] interprets one decision and [exec] a whole run;
    - [countJobs] is a plain [size_t]: [countJobs++] and [countJobs--] are
      a load followed by a store, and nothing but a lock held by every
      thread that touches the counter makes the two one step;
    - time is a clock in milliseconds that only [Tick] advances;
      [sleep_for] returns once the clock has advanced by the delay.

    - [main] (lines 93-129) is the sequence of its calls on the scheduler
      it constructs, made by one thread; of an operation only the way it
      ends is kept, and of the callback what it is told, not what they
      print.

    Thread creation and allocation are taken to succeed, a job returns or
    throws, and the error callback returns. *)

From Stdlib Require Import ZArith Lia.
From stdpp Require Import base tactics option list strings.

Local Open Scope Z_scope.

(** ** Data *)

(** [size_t] on the 64-bit targets the program is built for: arithmetic on
    [countJobs] wraps around modulo [2^64]. *)
Definition size_t_bits : Z := 64.
Definition size_t_max : Z := 2 ^ size_t_bits - 1.
Definition size_t_wrap (z : Z) : Z := z mod 2 ^ size_t_bits.

(** What a [throw] inside a job carries: an object derived from
    [std::exception], with the text its [what()] returns, or any other
    value (the [const char*] of the second job of [main], for one). *)
Inductive Thrown : Type :=
| std_exception (what : string)
| other_value.

(** The type [Job] of line 8, a pointer to a function without arguments or
    result.  A job is called once and either returns or throws. *)
Inductive Job : Type :=
| returns
| throws (e : Thrown).

(** The type [Error] of line 11, a pointer to a function that receives a
    [const std::exception &]; the pointer may be null. *)
Inductive Error : Type :=
| nullptr
| callback.

(** Threads are named by their position in the thread table. *)
Definition tid : Type := nat.

(** The data members of [class Scheduler], lines 26-30.  [mutex] holds its
    owner, [condition] the threads blocked inside [condition.wait]. *)
Record Scheduler : Type := mkScheduler {
  condition : list tid;
  mutex : option tid;
  maxJobsAllowed : Z;
  error : Error;
  countJobs : Z
}.

(** ** Construction, lines 33-39 *)

(** The member initialisers run first ([countJobs{}] is zero), then the
    body throws [std::runtime_error] on a null callback, in which case no
    object is left. *)
Definition Scheduler_new (size : Z) (err : Error) : Thrown + Scheduler :=
  match err with
  | nullptr => inl (std_exception "non-null error callback required")
  | callback =>
      inr {| condition := []; mutex := None; maxJobsAllowed := size;
             error := err; countJobs := 0 |}
  end.

(** ** Threads *)

(** The two public member functions a caller may enter. *)
Inductive Call : Type :=
| schedule (j : Job) (n : Z)
| wait.

(** Where a thread that calls into the scheduler stands.  [S..] are lines
    of [Scheduler::schedule], [W..] lines of [Scheduler::wait].  The
    statement [countJobs++] of line 49 is a load followed by a store, the
    object being a plain [size_t].  [adm] remembers the clock at which the
    admission predicate was found true. *)
Inductive CallerPc : Type :=
| Idle
| S44 (j : Job) (n : Z)
| S47 (j : Job) (n : Z)
| S47_blocked (j : Job) (n : Z)
| S47_woken (j : Job) (n : Z)
| S49_load (j : Job) (n : Z) (adm : Z)
| S49_store (j : Job) (n : Z) (adm : Z) (r : Z)
| S58 (j : Job) (n : Z) (adm : Z)
| S80
| W86
| W89
| W89_blocked
| W89_woken.

(** Where the thread started at line 58 stands inside its lambda, lines
    59-79.  [L70] and [L74] are the two handlers, about to call [error];
    [countJobs--] of line 78 is again a load and a store. *)
Inductive WorkerPc : Type :=
| L62
| L66
| L70 (what : string)
| L74
| L77
| L78_load
| L78_store (r : Z)
| Finished.

(** The captures [n] and [job] of the lambda, the clock values at which
    the job was admitted and at which its thread started, and the program
    counter. *)
Record Worker : Type := mkWorker {
  job : Job;
  delay : Z;
  admitted_at : Z;
  started : Z;
  wpc : WorkerPc
}.

Inductive Thread : Type :=
| Caller (pc : CallerPc)
| Spawned (k : Worker).

(** The whole program state: the scheduler object, the thread table, the
    clock in milliseconds, and the calls the error callback has received
    (which thread called it, and the [what()] of its argument). *)
Record World : Type := mkWorld {
  this : Scheduler;
  threads : list Thread;
  clock : Z;
  reported : list (tid * string)
}.

(** ** Updates *)

Definition set_mutex (o : option tid) (s : Scheduler) : Scheduler :=
  {| condition := condition s; mutex := o; maxJobsAllowed := maxJobsAllowed s;
     error := error s; countJobs := countJobs s |}.

Definition set_condition (c : list tid) (s : Scheduler) : Scheduler :=
  {| condition := c; mutex := mutex s; maxJobsAllowed := maxJobsAllowed s;
     error := error s; countJobs := countJobs s |}.

Definition set_countJobs (z : Z) (s : Scheduler) : Scheduler :=
  {| condition := condition s; mutex := mutex s; maxJobsAllowed := maxJobsAllowed s;
     error := error s; countJobs := z |}.

Definition upd_this (f : Scheduler -> Scheduler) (w : World) : World :=
  {| this := f (this w); threads := threads w; clock := clock w;
     reported := reported w |}.

Definition set_thread (t : tid) (th : Thread) (w : World) : World :=
  {| this := this w; threads := <[t := th]> (threads w); clock := clock w;
     reported := reported w |}.

Definition goto (t : tid) (pc : CallerPc) (w : World) : World :=
  set_thread t (Caller pc) w.

(** The worker [k] moved to another program point. *)
Definition at_pc (k : Worker) (pc : WorkerPc) : Worker :=
  {| job := job k; delay := delay k; admitted_at := admitted_at k;
     started := started k; wpc := pc |}.

Definition wgoto (t : tid) (k : Worker) (pc : WorkerPc) (w : World) : World :=
  set_thread t (Spawned (at_pc k pc)) w.

Definition spawn (k : Worker) (w : World) : World :=
  {| this := this w; threads := threads w ++ [Spawned k]; clock := clock w;
     reported := reported w |}.

Definition report (t : tid) (what : string) (w : World) : World :=
  {| this := this w; threads := threads w; clock := clock w;
     reported := reported w ++ [(t, what)] |}.

Definition advance (d : Z) (w : World) : World :=
  {| this := this w; threads := threads w; clock := clock w + d;
     reported := reported w |}.

(** ** The synchronisation primitives *)

Definition is_waiting (t : tid) (s : Scheduler) : bool :=
  existsb (Nat.eqb t) (condition s).

Definition drop_waiter (t : tid) (c : list tid) : list tid :=
  List.filter (fun x => negb (Nat.eqb t x)) c.

(** [std::unique_lock] construction, and re-acquisition on the way out of
    [condition_variable::wait]: possible only when nobody owns the mutex. *)
Definition acquire (t : tid) (pc : CallerPc) (w : World) : option World :=
  match mutex (this w) with
  | None => Some (goto t pc (upd_this (set_mutex (Some t)) w))
  | Some _ => None
  end.

(** [condition_variable::wait(lock)]: release the mutex and join the wait
    set in one atomic step. *)
Definition block (t : tid) (pc : CallerPc) (w : World) : World :=
  goto t pc
    (upd_this (fun s => set_condition (condition s ++ [t]) (set_mutex None s)) w).

(** A blocked thread leaves the wait set and must re-acquire the mutex. *)
Definition unblock (t : tid) (w : World) : option World :=
  if is_waiting t (this w) then
    match threads w !! t with
    | Some (Caller (S47_blocked j n)) =>
        Some (goto t (S47_woken j n)
                (upd_this (fun s => set_condition (drop_waiter t (condition s)) s) w))
    | Some (Caller W89_blocked) =>
        Some (goto t W89_woken
                (upd_this (fun s => set_condition (drop_waiter t (condition s)) s) w))
    | _ => None
    end
  else None.

(** ** One statement of a calling thread *)

Definition step_caller (t : tid) (pc : CallerPc) (w : World) : option World :=
  match pc with
  | Idle => None
  (* line 44 *)
  | S44 j n => acquire t (S47 j n) w
  (* lines 47-48: the predicate, evaluated with the mutex held *)
  | S47 j n =>
      if countJobs (this w) <? maxJobsAllowed (this w)
      then Some (goto t (S49_load j n (clock w)) w)
      else Some (block t (S47_blocked j n) w)
  | S47_blocked _ _ => None
  | S47_woken j n => acquire t (S47 j n) w
  (* line 49 *)
  | S49_load j n adm => Some (goto t (S49_store j n adm (countJobs (this w))) w)
  | S49_store j n adm r =>
      Some (goto t (S58 j n adm) (upd_this (set_countJobs (size_t_wrap (r + 1))) w))
  (* lines 55-79: the shared pointer and the new thread; both are taken
     to be created, so the [std::bad_alloc] of line 55 and the
     [std::system_error] of line 58, which would leave [schedule] through
     its caller with line 49 done, are no step of the model *)
  | S58 j n adm =>
      Some (goto t S80
              (spawn {| job := j; delay := n; admitted_at := adm;
                        started := clock w; wpc := L62 |} w))
  (* lines 80-81: detach, destroy the lock, return *)
  | S80 => Some (goto t Idle (upd_this (set_mutex None) w))
  (* line 86 *)
  | W86 => acquire t W89 w
  (* lines 89-91: the predicate; when it holds the lock is destroyed and
     the function returns.  These make one step, whose state shows the
     counter as the predicate read it under the lock: a job thread, which
     takes no lock at line 78, may write it before the caller runs its
     next statement, so nothing below relies on the value of the counter
     after the return *)
  | W89 =>
      if countJobs (this w) =? 0
      then Some (goto t Idle (upd_this (set_mutex None) w))
      else Some (block t W89_blocked w)
  | W89_blocked => None
  | W89_woken => acquire t W89 w
  end.

(** ** One statement of a spawned thread *)

Definition step_worker (t : tid) (k : Worker) (w : World) : option World :=
  match wpc k with
  (* line 62: sleep_for returns once [delay] milliseconds have passed *)
  | L62 => if started k + delay k <=? clock w then Some (wgoto t k L66 w) else None
  (* line 66, and the choice of handler at lines 68 and 72 *)
  | L66 =>
      match job k with
      | returns => Some (wgoto t k L77 w)
      | throws (std_exception e) => Some (wgoto t k (L70 e) w)
      | throws other_value => Some (wgoto t k L74 w)
      end
  (* line 70 *)
  | L70 e => Some (wgoto t k L77 (report t e w))
  (* line 74 *)
  | L74 => Some (wgoto t k L77 (report t "Unknown" w))
  (* line 77 with nobody waiting; see [Notify] otherwise *)
  | L77 =>
      match condition (this w) with
      | [] => Some (wgoto t k L78_load w)
      | _ :: _ => None
      end
  (* line 78 *)
  | L78_load => Some (wgoto t k (L78_store (countJobs (this w))) w)
  | L78_store r =>
      Some (wgoto t k Finished (upd_this (set_countJobs (size_t_wrap (r - 1))) w))
  | Finished => None
  end.

(** ** Scheduling decisions *)

Inductive Action : Type :=
| Enter (t : tid) (c : Call)   (* an idle caller enters a member function *)
| Exec (t : tid)               (* thread [t] runs its next statement *)
| Notify (t u : tid)           (* [notify_one] of worker [t] picks waiter [u] *)
| Spurious (u : tid)           (* a spurious wake-up of waiter [u] *)
| Tick (d : Z).                (* [d] milliseconds pass *)

Definition step (w : World) (a : Action) : option World :=
  match a with
  | Enter t c =>
      match threads w !! t with
      | Some (Caller Idle) =>
          match c with
          | schedule j n => Some (goto t (S44 j n) w)
          | wait => Some (goto t W86 w)
          end
      | _ => None
      end
  | Exec t =>
      match threads w !! t with
      | Some (Caller pc) => step_caller t pc w
      | Some (Spawned k) => step_worker t k w
      | None => None
      end
  | Notify t u =>
      match threads w !! t with
      | Some (Spawned k) =>
          match wpc k with
          | L77 =>
              match unblock u w with
              | Some w' => Some (wgoto t k L78_load w')
              | None => None
              end
          | _ => None
          end
      | _ => None
      end
  | Spurious u => unblock u w
  | Tick d => if 0 <? d then Some (advance d w) else None
  end.

Fixpoint exec (w : World) (tr : list Action) : option World :=
  match tr with
  | [] => Some w
  | a :: tr' =>
      match step w a with
      | Some w' => exec w' tr'
      | None => None
      end
  end.

(** A program starts with a constructed scheduler and some calling
    threads, all idle, at time zero. *)
Definition boot (s : Scheduler) (callers : nat) : World :=
  {| this := s; threads := replicate callers (Caller Idle); clock := 0;
     reported := [] |}.

Inductive reachable (s : Scheduler) (callers : nat) : World -> Prop :=
| reach_boot : reachable s callers (boot s callers)
| reach_step w a w' :
    reachable s callers w -> step w a = Some w' -> reachable s callers w'.


(** ** Predicates on program points *)

(** The program points of a caller between a successful lock (or
    re-lock) and the matching unlock. *)
Definition holds (pc : CallerPc) : bool :=
  match pc with
  | S47 _ _ | S49_load _ _ _ | S49_store _ _ _ _ | S58 _ _ _ | S80 | W89 => true
  | _ => false
  end.

Definition in_schedule (pc : CallerPc) : bool :=
  match pc with
  | S44 _ _ | S47 _ _ | S47_blocked _ _ | S47_woken _ _
  | S49_load _ _ _ | S49_store _ _ _ _ | S58 _ _ _ | S80 => true
  | _ => false
  end.

Definition in_wait (pc : CallerPc) : bool :=
  match pc with
  | W86 | W89 | W89_blocked | W89_woken => true
  | _ => false
  end.

(** The program points of [schedule] after the admission wait. *)
Definition past_admission (pc : CallerPc) : bool :=
  match pc with
  | S49_load _ _ _ | S49_store _ _ _ _ | S58 _ _ _ | S80 => true
  | _ => false
  end.

(** The program points after the [try] statement of lines 64-75. *)
Definition handled (pc : WorkerPc) : bool :=
  match pc with
  | L77 | L78_load | L78_store _ | Finished => true
  | _ => false
  end.

(** ** Invariants *)

(** A caller owns the mutex exactly inside its locked regions; a spawned
    thread never does. *)
Definition owner_ok (m : option tid) (t : tid) (th : Thread) : Prop :=
  match th with
  | Caller pc => holds pc = true <-> m = Some t
  | Spawned _ => m <> Some t
  end.

Definition mutex_inv (w : World) : Prop :=
  forall t th, threads w !! t = Some th -> owner_ok (mutex (this w)) t th.

(** Every remembered clock value lies in the past, and a spawned thread
    that has left line 62 has slept for its whole [delay]. *)
Definition time_ok (c : Z) (th : Thread) : Prop :=
  match th with
  | Caller (S49_load _ _ adm) | Caller (S49_store _ _ adm _) | Caller (S58 _ _ adm) =>
      adm <= c
  | Caller _ => True
  | Spawned k =>
      admitted_at k <= started k /\ started k <= c /\
      (wpc k <> L62 -> started k + delay k <= c)
  end.

Definition time_inv (w : World) : Prop :=
  forall t th, threads w !! t = Some th -> time_ok (clock w) th.

(** What the error callback has been told by thread [t]. *)
Definition reports_in (t : tid) (l : list (tid * string)) : list string :=
  map snd (List.filter (fun r => Nat.eqb (fst r) t) l).

Definition reports_of (t : tid) (w : World) : list string :=
  reports_in t (reported w).

(** The text the callback finds in [e.what()]: the thrown object's own
    text at line 70, the text of the [std::runtime_error] built at line 74
    otherwise. *)
Definition description (e : Thrown) : string :=
  match e with
  | std_exception what => what
  | other_value => "Unknown"
  end.

Definition expected_reports (th : Thread) : list string :=
  match th with
  | Caller _ => []
  | Spawned k =>
      match job k with
      | returns => []
      | throws e => if handled (wpc k) then [description e] else []
      end
  end.

(** A thread stands in a handler only for the matching kind of throw. *)
Definition handler_ok (th : Thread) : Prop :=
  match th with
  | Caller _ => True
  | Spawned k =>
      match wpc k with
      | L70 what => job k = throws (std_exception what)
      | L74 => job k = throws other_value
      | _ => True
      end
  end.

Definition report_inv (w : World) : Prop :=
  (forall t th, threads w !! t = Some th ->
     handler_ok th /\ reports_of t w = expected_reports th) /\
  (forall t, (length (threads w) <= t)%nat -> reports_of t w = []).

(** A caller past the admission wait, and any spawned thread, witness an
    admission. *)
Definition never_admitted (th : Thread) : Prop :=
  match th with
  | Caller pc => past_admission pc = false
  | Spawned _ => False
  end.

Definition closed_inv (w : World) : Prop :=
  maxJobsAllowed (this w) = 0 /\ countJobs (this w) = 0 /\
  forall t th, threads w !! t = Some th -> never_admitted th.

(** ** The counter when updates are not divided *)

(** A thread between the load and the store of an update of [countJobs]. *)
Definition mid_update (th : Thread) : bool :=
  match th with
  | Caller (S49_store _ _ _ _) => true
  | Caller _ => false
  | Spawned k => match wpc k with L78_store _ => true | _ => false end
  end.

(** The runs in which the two halves of an update are not separated:
    while a thread stands between its load and its store, only that
    thread moves. *)
Definition undivided (w : World) (a : Action) : Prop :=
  forall t th, threads w !! t = Some th -> mid_update th = true -> a = Exec t.

Inductive reachable_undivided (s : Scheduler) (callers : nat) : World -> Prop :=
| undivided_boot : reachable_undivided s callers (boot s callers)
| undivided_step w a w' :
    reachable_undivided s callers w -> undivided w a -> step w a = Some w' ->
    reachable_undivided s callers w'.

(** What a thread contributes to the number of jobs in flight: a caller
    that has stored the incremented counter and not yet started the
    thread, and a spawned thread that has not yet stored the decremented
    counter. *)
Definition in_flight (th : Thread) : Z :=
  match th with
  | Caller (S58 _ _ _) => 1
  | Caller _ => 0
  | Spawned k => match wpc k with Finished => 0 | _ => 1 end
  end.

Fixpoint in_flight_total (l : list Thread) : Z :=
  match l with
  | [] => 0
  | th :: l' => in_flight th + in_flight_total l'
  end.

Definition update_ok (s : Scheduler) (th : Thread) : Prop :=
  match th with
  | Caller (S49_load _ _ _) => countJobs s < maxJobsAllowed s
  | Caller (S49_store _ _ _ r) => r = countJobs s /\ countJobs s < maxJobsAllowed s
  | Caller _ => True
  | Spawned k => match wpc k with L78_store r => r = countJobs s | _ => True end
  end.

Definition counter_inv (w : World) : Prop :=
  maxJobsAllowed (this w) <= size_t_max /\
  countJobs (this w) = in_flight_total (threads w) /\
  countJobs (this w) <= maxJobsAllowed (this w) /\
  forall t th, threads w !! t = Some th -> update_ok (this w) th.

(** ** Quiescence *)

(** A thread that will not touch the counter again unless a new job is
    submitted: a caller outside [schedule], a job thread at its end. *)
Definition settled (th : Thread) : bool :=
  match th with
  | Caller pc => negb (in_schedule pc)
  | Spawned k => match wpc k with Finished => true | _ => false end
  end.

Definition is_submission (a : Action) : bool :=
  match a with
  | Enter _ (schedule _ _) => true
  | _ => false
  end.

Definition quiescent (w : World) : Prop :=
  countJobs (this w) = 0 /\
  forall t th, threads w !! t = Some th -> settled th = true.

(** ** Calls run without interference *)

(** Thread [t] enters [c] and runs [steps] statements while nothing else
    moves. *)
Definition call_alone (t : tid) (c : Call) (steps : nat) : list Action :=
  Enter t c :: replicate steps (Exec t).

(** A second [wait()] entered in [w] comes back after the lock and one
    look at the predicate, leaving [w] as it was. *)
Definition returns_at_once (t : tid) (w : World) : Prop :=
  exec w (call_alone t wait 2) = Some w.

(** ** Three runs of the program *)

(** The object [main] constructs at line 98, and one with a single slot. *)
Definition two_slots : Scheduler :=
  {| condition := []; mutex := None; maxJobsAllowed := 2; error := callback;
     countJobs := 0 |}.

Definition one_slot : Scheduler :=
  {| condition := []; mutex := None; maxJobsAllowed := 1; error := callback;
     countJobs := 0 |}.

(** Thread 0 submits a job; its thread 1 runs the job and loads
    [countJobs] for line 78; thread 0 submits a second job, thread 2;
    thread 1 stores; thread 2 runs to its end. *)
Definition lost_update_run : list Action :=
  call_alone 0%nat (schedule returns 0) 6 ++
  replicate 4 (Exec 1%nat) ++
  call_alone 0%nat (schedule returns 0) 6 ++
  [Exec 1%nat] ++
  replicate 5 (Exec 2%nat).

(** Thread 0 submits a job and blocks in [wait]; thread 1 runs the job,
    notifies at line 77, and thread 0 takes the mutex back. *)
Definition notify_run : list Action :=
  call_alone 0%nat (schedule returns 0) 6 ++
  call_alone 0%nat wait 2 ++
  [Exec 1%nat; Exec 1%nat; Notify 1%nat 0%nat; Exec 0%nat].

(** A job that throws a [std::runtime_error] built from the empty string,
    run to its end. *)
Definition empty_what_run : list Action :=
  call_alone 0%nat (schedule (throws (std_exception EmptyString)) 0) 6 ++
  replicate 6 (Exec 1%nat).

(** ** The wait set and the owner of the mutex *)

(** The program points at which a caller sits inside [condition.wait]. *)
Definition blocked (pc : CallerPc) : bool :=
  match pc with
  | S47_blocked _ _ | W89_blocked => true
  | _ => false
  end.

(** The same, of a thread. *)
Definition is_blocked (th : Thread) : bool :=
  match th with
  | Caller pc => blocked pc
  | Spawned _ => false
  end.

(** The wait set of the condition variable holds exactly the blocked
    threads, each once. *)
Definition condition_inv (w : World) : Prop :=
  NoDup (condition (this w)) /\
  (forall t, t ∈ condition (this w) -> (t < length (threads w))%nat) /\
  (forall t th, threads w !! t = Some th ->
     (t ∈ condition (this w) <-> is_blocked th = true)).

(** The owner of the mutex is a thread of the table. *)
Definition owner_known (w : World) : Prop :=
  forall t, mutex (this w) = Some t -> (t < length (threads w))%nat.

(** ** The calls of a run *)

(** The member functions entered in the course of a run, in order. *)
Fixpoint entered (tr : list Action) : list Call :=
  match tr with
  | [] => []
  | Enter _ c :: tr' => c :: entered tr'
  | _ :: tr' => entered tr'
  end.

(** The operations and delays handed to [schedule]. *)
Fixpoint submissions (cs : list Call) : list (Job * Z) :=
  match cs with
  | [] => []
  | schedule j n :: cs' => (j, n) :: submissions cs'
  | wait :: cs' => submissions cs'
  end.

(** The operation and delay a caller inside [schedule] has not yet handed
    to a thread. *)
Definition pending (pc : CallerPc) : list (Job * Z) :=
  match pc with
  | S44 j n | S47 j n | S47_blocked j n | S47_woken j n
  | S49_load j n _ | S49_store j n _ _ | S58 j n _ => [(j, n)]
  | _ => []
  end.

(** What a job thread has captured at line 59. *)
Definition captured (k : Worker) : Job * Z := (job k, delay k).

(** A caller stands inside the member function [c], or has returned. *)
Definition inside (c : Call) (pc : CallerPc) : bool :=
  match c with
  | schedule _ _ => in_schedule pc
  | wait => in_wait pc
  end.

(** The scheduling decisions that enter a member function. *)
Definition is_enter (a : Action) : bool :=
  match a with
  | Enter _ _ => true
  | _ => false
  end.

(** Every step of a run obeys [undivided]. *)
Fixpoint undivided_run (w : World) (tr : list Action) : Prop :=
  match tr with
  | [] => True
  | a :: tr' =>
      undivided w a /\
      match step w a with
      | Some w' => undivided_run w' tr'
      | None => True
      end
  end.

(** Executable forms of [undivided] and [undivided_run]. *)
Fixpoint undivided_from (i : nat) (l : list Thread) (a : Action) : bool :=
  match l with
  | [] => true
  | th :: l' =>
      (if mid_update th
       then match a with Exec u => Nat.eqb u i | _ => false end
       else true)
      && undivided_from (S i) l' a
  end.

Fixpoint undivided_runb (w : World) (tr : list Action) : bool :=
  match tr with
  | [] => true
  | a :: tr' =>
      undivided_from 0 (threads w) a &&
      match step w a with
      | Some w' => undivided_runb w' tr'
      | None => true
      end
  end.

(** ** [main], lines 93-129 *)

(** The calls of [main], lines 103-124, on the scheduler of line 98.  The
    first, fourth and fifth operation return, the second throws a
    [const char*], the third a [std::out_of_range("err")]. *)
Definition main_calls : list Call :=
  [ schedule returns 1000;
    schedule (throws other_value) 150;
    schedule (throws (std_exception "err")) 1500;
    schedule returns 100;
    schedule returns 3000;
    wait ].

(** A run of [main]: thread 0 enters the calls of [main] in their order;
    [main] is over once all are entered and thread 0 is idle again. *)
Definition run_of_main (tr : list Action) (w : World) : Prop :=
  exec (boot two_slots 1) tr = Some w /\ entered tr `prefix_of` main_calls.

Definition main_is_over (tr : list Action) (w : World) : Prop :=
  entered tr = main_calls /\ threads w !! 0%nat = Some (Caller Idle).

(** The two calls the error callback of [main] can receive. *)
Definition main_failures : list (tid * string) :=
  [ (2%nat, "Unknown"); (3%nat, "err") ].

(** The clock never runs backwards from zero. *)
Definition clock_inv (w : World) : Prop :=
  0 <= clock w /\
  forall t k, threads w !! t = Some (Spawned k) -> 0 <= started k.

(** The admission time a caller past the predicate has not yet handed to
    a thread. *)
Definition granted (pc : CallerPc) : list Z :=
  match pc with
  | S49_load _ _ adm | S49_store _ _ adm _ | S58 _ _ adm => [adm]
  | _ => []
  end.

(** The earliest moments at which the five jobs of [main] can be admitted
    when no update of the counter is divided: the third needs one of the
    first two to be over, the fourth two of the first three, the fifth
    three of the first four. *)
Definition main_admission_floor : list Z := [0; 0; 150; 1000; 1100].

(** The admission times [l], in the order of admission, respect these. *)
Definition admissions_ok (l : list Z) : Prop :=
  forall i a, l !! i = Some a ->
    exists f, main_admission_floor !! i = Some f /\ f <= a.

(** ** Runs in which the notification comes too early *)

(** The statements of a job thread from the call of the operation to
    line 77: one more when a handler runs. *)
Definition body_steps (j : Job) : list Action :=
  match j with
  | returns => [Exec 1%nat]
  | throws _ => [Exec 1%nat; Exec 1%nat]
  end.

(** Thread 0 submits a job and blocks in [wait]; the job's thread sleeps,
    runs the job and notifies; thread 0 wakes, finds the counter still at
    one and blocks again; only then does the job's thread decrement. *)
Definition lost_wakeup_run (j : Job) (n : Z) : list Action :=
  call_alone 0%nat (schedule j n) 6 ++
  call_alone 0%nat wait 2 ++
  [Tick (Z.max 1 n); Exec 1%nat] ++
  body_steps j ++
  [Notify 1%nat 0%nat; Exec 0%nat; Exec 0%nat; Exec 1%nat; Exec 1%nat].

(** Where that run ends, and how the program looks whenever only time
    passes afterwards. *)
Definition lost_wakeup_end (size : Z) (j : Job) (n : Z) (c : Z) : World :=
  {| this := {| condition := [0%nat]; mutex := None; maxJobsAllowed := size;
                error := callback; countJobs := 0 |};
     threads :=
       [Caller W89_blocked;
        Spawned {| job := j; delay := n; admitted_at := 0; started := 0;
                   wpc := Finished |}];
     clock := c;
     reported := match j with
                 | returns => []
                 | throws e => [(1%nat, description e)]
                 end |}.

(** The spurious wake-ups. *)
Definition is_spurious (a : Action) : bool :=
  match a with
  | Spurious _ => true
  | _ => false
  end.

(** Thread 0 submits a first job; its thread sleeps, runs the job, finds
    nobody to notify and loads [countJobs] for line 78; thread 0 submits a
    second job; the first thread stores; thread 0 calls [wait]. *)
Definition early_return_run (j1 : Job) (n1 : Z) (j2 : Job) (n2 : Z) : list Action :=
  call_alone 0%nat (schedule j1 n1) 6 ++
  [Tick (Z.max 1 n1); Exec 1%nat] ++
  body_steps j1 ++
  [Exec 1%nat; Exec 1%nat] ++
  call_alone 0%nat (schedule j2 n2) 6 ++
  [Exec 1%nat] ++
  call_alone 0%nat wait 2.

(** Where that run ends. *)
Definition early_return_end (size : Z) (j1 : Job) (n1 : Z) (j2 : Job) (n2 : Z) : World :=
  {| this := {| condition := []; mutex := None; maxJobsAllowed := size;
                error := callback; countJobs := 0 |};
     threads :=
       [Caller Idle;
        Spawned {| job := j1; delay := n1; admitted_at := 0; started := 0;
                   wpc := Finished |};
        Spawned {| job := j2; delay := n2; admitted_at := Z.max 1 n1;
                   started := Z.max 1 n1; wpc := L62 |}];
     clock := Z.max 1 n1;
     reported := match j1 with
                 | returns => []
                 | throws e => [(1%nat, description e)]
                 end |}.

(** ** Calls that do not come back *)

(** Every caller sits inside [condition.wait] and every job thread has
    run to its end: nobody is left to call [notify_one]. *)
Definition all_asleep (w : World) : Prop :=
  forall t th, threads w !! t = Some th ->
    match th with
    | Caller pc => blocked pc = true
    | Spawned k => wpc k = Finished
    end.

(** Thread 0 is inside [wait], the counter is [c], and every other thread
    is a job thread that has run to its end. *)
Definition hung_in_wait (c : Z) (w : World) : Prop :=
  countJobs (this w) = c /\
  (exists pc, threads w !! 0%nat = Some (Caller pc) /\ in_wait pc = true) /\
  forall t th, threads w !! t = Some th -> t <> 0%nat ->
    exists k, th = Spawned k /\ wpc k = Finished.

(** Thread 0 submits two jobs, the decrement of the first divided by the
    admission of the second, and calls [wait], which returns; the second
    job runs to its end; thread 0 calls [wait] again. *)
Definition second_wait_run : list Action :=
  early_return_run returns 0 returns 0 ++
  replicate 5 (Exec 2%nat) ++
  call_alone 0%nat wait 2.

(** Thread 0 submits a job to a scheduler with one slot and blocks in a
    second call of [schedule]; the thread of the first job runs it and
    notifies; thread 0 wakes, finds the counter still at one and blocks
    again; only then does the job's thread decrement. *)
Definition blocked_submitter_run : list Action :=
  call_alone 0%nat (schedule returns 0) 6 ++
  call_alone 0%nat (schedule (throws other_value) 5) 2 ++
  [Exec 1%nat; Exec 1%nat; Notify 1%nat 0%nat;
   Exec 0%nat; Exec 0%nat; Exec 1%nat; Exec 1%nat].

(** ** The way of a job thread to its end *)

(** The statements a job thread still has to run. *)
Definition remaining (pc : WorkerPc) : nat :=
  match pc with
  | L62 => 6
  | L66 => 5
  | L70 _ | L74 => 4
  | L77 => 3
  | L78_load => 2
  | L78_store _ => 1
  | Finished => 0
  end.

(** The scheduling decisions that are a statement of thread [t] or the
    passage of time. *)
Definition own_action (t : tid) (a : Action) : bool :=
  match a with
  | Exec u | Notify u _ => Nat.eqb u t
  | Tick _ => true
  | _ => false
  end.

(** ** A run of [main] *)

(** A job thread that runs from its sleep to its end once its delay is
    over, waking thread 0 on the way: [handler] is true when the
    operation throws. *)
Definition job_to_end (t : tid) (handler : bool) : list Action :=
  [Exec t; Exec t] ++ (if handler then [Exec t] else []) ++
  [Notify t 0%nat; Exec t; Exec t].

(** A run of [main] to its end in which no update of the counter is
    divided. *)
Definition main_run : list Action :=
  call_alone 0%nat (schedule returns 1000) 6 ++
  call_alone 0%nat (schedule (throws other_value) 150) 6 ++
  call_alone 0%nat (schedule (throws (std_exception "err")) 1500) 2 ++
  [Tick 150] ++ job_to_end 2%nat true ++ replicate 6 (Exec 0%nat) ++
  call_alone 0%nat (schedule returns 100) 2 ++
  [Tick 850] ++ job_to_end 1%nat false ++ replicate 6 (Exec 0%nat) ++
  call_alone 0%nat (schedule returns 3000) 2 ++
  [Tick 100] ++ job_to_end 4%nat false ++ replicate 6 (Exec 0%nat) ++
  call_alone 0%nat wait 2 ++
  [Tick 550] ++ job_to_end 3%nat true ++ replicate 2 (Exec 0%nat) ++
  [Tick 2450] ++ job_to_end 5%nat false ++ replicate 2 (Exec 0%nat).

Arguments size_t_wrap : simpl never.

(** ** Tactics *)

(** [step_inv H] splits [H : step w a = Some w'] into one goal per
    statement that can have run. *)
Ltac step_inv H :=
  unfold step, step_caller, step_worker, acquire, unblock in H;
  repeat match type of H with
         | context [match ?x with _ => _ end] => destruct x eqn:?; try discriminate H
         end;
  repeat match goal with
         | H' : context [match ?x with _ => _ end] |- _ =>
             destruct x eqn:?; try discriminate H'
         end;
  simplify_eq.

(** [thread_cases H] tells whether the thread looked up in [H] in the new
    table is the one that moved, the one just spawned, or an untouched
    one. *)
Ltac thread_cases H :=
  repeat first
    [ apply list_lookup_insert_Some in H as [(<- & <- & ?) | (? & H)]
    | apply lookup_snoc_Some in H as [(? & H) | (-> & <-)] ].

Ltac length_side :=
  repeat first [rewrite length_app | rewrite length_insert];
  simpl;
  repeat match goal with
         | H : _ !! _ = Some _ |- _ => apply lookup_lt_Some in H
         end;
  lia.

(** [where_is x] computes the entry of thread [x] in the new table of the
    goal, by cases on whether [x] is the thread that moved. *)
Ltac where_is x :=
  repeat match goal with
         | |- context [(_ ++ _) !! x] =>
             rewrite lookup_app_l by length_side
         | |- context [<[x := _]> _ !! x] =>
             rewrite list_lookup_insert_eq by length_side
         | |- context [<[?i := _]> _ !! x] =>
             destruct (decide (i = x)) as [->|];
             [ rewrite list_lookup_insert_eq by length_side
             | rewrite list_lookup_insert_ne by done ]
         end.

(** Two lookups of the same thread in the same table agree. *)
Ltac same_thread H :=
  repeat match goal with
         | H' : threads ?w !! ?t = Some _ |- _ =>
             lazymatch type of H with
             | threads w !! t = Some _ =>
                 tryif constr_eq H H' then fail else
                   (rewrite H in H'; simplify_eq H'; intros; subst)
             end
         end.

(** [run_thread H] executes the statements of a run on a symbolic world,
    [H] being the lookup of the running thread. *)
Ltac run_thread H :=
  repeat first
    [ progress simpl
    | rewrite H
    | rewrite list_lookup_insert_eq by length_side
    | match goal with Hc : (_ <? _) = _ |- _ => rewrite Hc end
    | match goal with Hc : (_ <=? _) = _ |- _ => rewrite Hc end
    | match goal with Hc : (_ =? _) = _ |- _ => rewrite Hc end ].

(** * Lemmas *)

(** ** Arithmetic on [size_t] *)

Lemma size_t_wrap_small z : 0 <= z <= size_t_max -> size_t_wrap z = z.
Proof.
  unfold size_t_wrap, size_t_max, size_t_bits. intros Hz.
  apply Z.mod_small. lia.
Qed.

Lemma size_t_wrap_minus_one : size_t_wrap (0 - 1) = size_t_max.
Proof. reflexivity. Qed.

(** ** Runs *)

Lemma exec_app w tr1 tr2 :
  exec w (tr1 ++ tr2) = match exec w tr1 with
                        | Some w1 => exec w1 tr2
                        | None => None
                        end.
Proof.
  revert w. induction tr1 as [|a tr1 IH]; intros w; simpl; [done|].
  destruct (step w a); [apply IH | done].
Qed.

Lemma exec_reachable_from s callers w tr w' :
  reachable s callers w -> exec w tr = Some w' -> reachable s callers w'.
Proof.
  revert w. induction tr as [|a tr IH]; intros w Hw; simpl.
  - intros [= <-]. exact Hw.
  - destruct (step w a) as [w1|] eqn:Hs; [|discriminate].
    apply IH. eapply reach_step; eassumption.
Qed.

Lemma exec_reachable s callers tr w :
  exec (boot s callers) tr = Some w -> reachable s callers w.
Proof. apply exec_reachable_from. constructor. Qed.

(** ** Who owns the mutex *)

Lemma mutex_inv_step w a w' : mutex_inv w -> step w a = Some w' -> mutex_inv w'.
Proof.
  intros Hinv Hs u th Hu.
  step_inv Hs; simpl in *; thread_cases Hu;
    repeat match goal with
           | H : threads w !! _ = Some _ |- _ => apply Hinv in H
           end;
    unfold owner_ok in *; simpl in *;
    try (destruct th); simpl in *; intuition congruence.
Qed.

Lemma mutex_inv_reachable size err s callers w :
  Scheduler_new size err = inr s -> reachable s callers w -> mutex_inv w.
Proof.
  intros Hnew Hr. induction Hr as [|w a w' _ IH Hs].
  - intros t th Hth. apply lookup_replicate in Hth as [-> _].
    destruct err; simplify_eq/=. done.
  - eapply mutex_inv_step; eassumption.
Qed.

(** The mutex does its work between callers: two of them are never both
    inside a locked region, so the increments of line 49 are serialised. *)
Lemma mutual_exclusion size err s callers w t1 pc1 t2 pc2 :
  Scheduler_new size err = inr s -> reachable s callers w ->
  threads w !! t1 = Some (Caller pc1) -> holds pc1 = true ->
  threads w !! t2 = Some (Caller pc2) -> holds pc2 = true ->
  t1 = t2.
Proof.
  intros Hnew Hr H1 Hh1 H2 Hh2.
  pose proof (mutex_inv_reachable _ _ _ _ _ Hnew Hr) as Hinv.
  apply Hinv in H1, H2. simpl in *.
  apply H1 in Hh1. apply H2 in Hh2. congruence.
Qed.

Lemma increment_under_lock size err s callers w t j n adm r :
  Scheduler_new size err = inr s -> reachable s callers w ->
  threads w !! t = Some (Caller (S49_store j n adm r)) ->
  mutex (this w) = Some t.
Proof.
  intros Hnew Hr Ht.
  apply (mutex_inv_reachable _ _ _ _ _ Hnew Hr) in Ht. by apply Ht.
Qed.

(** The spawned threads, though, never take it: whatever they do to
    [countJobs] at line 78, they do without the lock. *)
Lemma spawned_never_owns_mutex size err s callers w t k :
  Scheduler_new size err = inr s -> reachable s callers w ->
  threads w !! t = Some (Spawned k) -> mutex (this w) <> Some t.
Proof.
  intros Hnew Hr Ht.
  apply (mutex_inv_reachable _ _ _ _ _ Hnew Hr) in Ht. exact Ht.
Qed.

(** ** The clock *)

Lemma time_inv_step w a w' : time_inv w -> step w a = Some w' -> time_inv w'.
Proof.
  intros Hinv Hs u th Hu.
  step_inv Hs; simpl in *; thread_cases Hu;
    repeat match goal with
           | H : threads w !! _ = Some _ |- _ => apply Hinv in H
           end;
    repeat match goal with
           | H : (_ <=? _) = true |- _ => apply Z.leb_le in H
           | H : (_ <? _) = true |- _ => apply Z.ltb_lt in H
           end;
    unfold time_ok in *; simpl in *;
    try (destruct th as [[]|]); simpl in *;
    repeat split; intros; try done; try lia; intuition (try congruence; lia).
Qed.

Lemma time_inv_reachable s callers w : reachable s callers w -> time_inv w.
Proof.
  induction 1 as [|w a w' _ IH Hs].
  - intros t th Hth. apply lookup_replicate in Hth as [-> _]. done.
  - eapply time_inv_step; eassumption.
Qed.

(** ** What the error callback has been told *)

Lemma reports_in_snoc t u what l :
  reports_in t (l ++ [(u, what)]) =
  reports_in t l ++ (if Nat.eqb u t then [what] else []).
Proof.
  unfold reports_in. rewrite List.filter_app, map_app. simpl.
  destruct (Nat.eqb u t); reflexivity.
Qed.

Lemma reports_in_elem t d l : (t, d) ∈ l -> d ∈ reports_in t l.
Proof.
  intros Hin. unfold reports_in.
  apply list_elem_of_In, in_map_iff. exists (t, d). split; [done|].
  apply List.filter_In. split; [by apply list_elem_of_In|].
  simpl. apply Nat.eqb_refl.
Qed.

Lemma report_inv_step w a w' : report_inv w -> step w a = Some w' -> report_inv w'.
Proof.
  intros [Hinv Hout] Hs. split.
  - intros u th Hu. unfold reports_of in *.
    step_inv Hs; simpl in *; thread_cases Hu;
      rewrite ?reports_in_snoc;
      try (rewrite (proj2 (Nat.eqb_neq _ _)) by done);
      try (rewrite Hout by lia);
      repeat match goal with
             | H : threads w !! _ = Some _ |- _ => apply Hinv in H as [? ?]
             end;
      unfold handler_ok, expected_reports in *; simpl in *;
      repeat match goal with
             | H : wpc _ = _ |- _ => rewrite H in *
             | H : job _ = _ |- _ => rewrite H in *
             end; simpl in *;
      repeat match goal with
             | H : reports_in _ _ = _ |- _ => rewrite H
             end;
      rewrite ?Nat.eqb_refl, ?app_nil_r;
      try (split; [done | congruence]);
      try (by destruct j); try (split; [done | reflexivity]).
  - intros u Hlen. unfold reports_of in *.
    step_inv Hs; simpl in *;
      rewrite ?length_insert, ?length_app in Hlen; simpl in Hlen;
      rewrite ?reports_in_snoc;
      repeat match goal with
             | H : threads w !! _ = Some _ |- _ => apply lookup_lt_Some in H
             end;
      try (rewrite (proj2 (Nat.eqb_neq _ _)) by lia);
      rewrite ?app_nil_r; apply Hout; lia.
Qed.

Lemma report_inv_reachable s callers w : reachable s callers w -> report_inv w.
Proof.
  induction 1 as [|w a w' _ IH Hs].
  - split; [|done]. intros t th Hth.
    apply lookup_replicate in Hth as [-> _]. done.
  - eapply report_inv_step; eassumption.
Qed.

(** ** A scheduler without slots *)

Lemma closed_inv_step w a w' : closed_inv w -> step w a = Some w' -> closed_inv w'.
Proof.
  intros (Hmax & Hcnt & Hinv) Hs.
  assert (forall t k, threads w !! t = Some (Spawned k) -> False) as Hno.
  { intros t k Ht. exact (Hinv _ _ Ht). }
  assert (forall t pc, threads w !! t = Some (Caller pc) -> past_admission pc = false)
    as Hpc.
  { intros t pc Ht. exact (Hinv _ _ Ht). }
  step_inv Hs;
    try match goal with
        | H : threads w !! _ = Some (Spawned _) |- _ => destruct (Hno _ _ H)
        end;
    try match goal with
        | H : threads w !! _ = Some (Caller _) |- _ =>
            apply Hpc in H; simpl in H; try discriminate H
        end;
    try match goal with
        | H : (countJobs (this w) <? maxJobsAllowed (this w)) = true |- _ =>
            rewrite Hmax, Hcnt in H; discriminate H
        end;
    (split; [exact Hmax | split; [exact Hcnt |]]);
    intros x thx Hx; simpl in *; thread_cases Hx; eauto.
Qed.

Lemma closed_inv_reachable s callers w :
  maxJobsAllowed s = 0 -> countJobs s = 0 ->
  reachable s callers w -> closed_inv w.
Proof.
  intros Hmax Hcnt. induction 1 as [|w a w' _ IH Hs].
  - repeat split; try done. intros t th Hth.
    apply lookup_replicate in Hth as [-> _]. done.
  - eapply closed_inv_step; eassumption.
Qed.

(** ** The counter when updates are not divided *)

Lemma in_flight_nonneg th : 0 <= in_flight th <= 1.
Proof. destruct th as [[]|[? ? ? ? []]]; simpl; lia. Qed.

Lemma in_flight_total_nonneg l : 0 <= in_flight_total l.
Proof.
  induction l as [|th l IH]; simpl; [lia|].
  pose proof (in_flight_nonneg th). lia.
Qed.

Lemma in_flight_total_app l1 l2 :
  in_flight_total (l1 ++ l2) = in_flight_total l1 + in_flight_total l2.
Proof. induction l1 as [|th l1 IH]; simpl; lia. Qed.

Lemma in_flight_total_insert l t th th' :
  l !! t = Some th ->
  in_flight_total (<[t := th']> l) = in_flight_total l - in_flight th + in_flight th'.
Proof.
  revert t. induction l as [|x l IH]; intros [|t] Hl; simplify_eq/=; [lia|].
  rewrite (IH _ Hl). lia.
Qed.

Lemma in_flight_total_lookup l t th :
  l !! t = Some th -> in_flight th <= in_flight_total l.
Proof.
  revert t. induction l as [|x l IH]; intros [|t] Hl; simplify_eq/=.
  - pose proof (in_flight_total_nonneg l). lia.
  - pose proof (IH _ Hl). pose proof (in_flight_nonneg x). lia.
Qed.

Lemma in_flight_total_replicate n : in_flight_total (replicate n (Caller Idle)) = 0.
Proof. induction n as [|n IH]; simpl; lia. Qed.

Lemma update_ok_frame s s' th :
  update_ok s th -> countJobs s' = countJobs s ->
  maxJobsAllowed s' = maxJobsAllowed s -> update_ok s' th.
Proof.
  intros H Hc Hm. destruct th as [[]|[? ? ? ? []]]; simpl in *;
    rewrite ?Hc, ?Hm; exact H.
Qed.

Lemma counter_inv_step w a w' :
  counter_inv w -> mutex_inv w -> undivided w a -> step w a = Some w' ->
  counter_inv w'.
Proof.
  intros (Hmax & Hcnt & Hle & Hloc) Hmx Hund Hs.
  pose proof (in_flight_total_nonneg (threads w)) as Hnn.
  step_inv Hs;
    repeat match goal with
           | H : wpc ?k = _ |- _ => destruct k; simpl in H; subst
           end;
    repeat match goal with
           | H : (_ <? _) = true |- _ => apply Z.ltb_lt in H
           end;
    repeat match goal with
           | H : threads w !! _ = Some _ |- _ =>
               lazymatch goal with
               | _ : update_ok (this w) _ |- _ => fail
               | _ => pose proof (Hloc _ _ H); pose proof (in_flight_total_lookup _ _ _ H);
                      pose proof (Hmx _ _ H)
               end
           end;
    simpl in *.
  all: refine (conj _ (conj _ (conj _ _))); simpl; try done.
  all: try rewrite size_t_wrap_small by lia.
  all: try (repeat (erewrite in_flight_total_insert
                      by first [ eassumption
                               | apply lookup_app_l_Some; eassumption
                               | rewrite list_lookup_insert_ne by congruence;
                                 eassumption ]);
            rewrite ?in_flight_total_app; simpl; lia).
  all: intros x thx Hx; thread_cases Hx; simpl; try done; try lia.
  all: try (apply (update_ok_frame (this w)); [by eapply Hloc | reflexivity..]).
  all: pose proof (Hloc _ _ Hx) as Hlx; pose proof (Hmx _ _ Hx) as Hmx';
    pose proof (Hund _ _ Hx) as Hux;
    destruct thx as [[]|[? ? ? ? []]]; simpl in *; try done;
    try (specialize (Hux eq_refl); congruence);
    try lia; intuition congruence.
Qed.

Lemma counter_inv_reachable size err s callers w :
  0 <= size <= size_t_max -> Scheduler_new size err = inr s ->
  reachable_undivided s callers w -> counter_inv w /\ mutex_inv w.
Proof.
  intros Hsize Hnew Hr. induction Hr as [|w a w' _ [IH1 IH2] Hund Hs].
  - destruct err; simplify_eq/=. split.
    + refine (conj _ (conj _ (conj _ _))); simpl.
      * lia.
      * by rewrite in_flight_total_replicate.
      * lia.
      * intros t th Hth. by apply lookup_replicate in Hth as [-> _].
    + intros t th Hth. by apply lookup_replicate in Hth as [-> _].
  - split; [by eapply counter_inv_step | by eapply mutex_inv_step].
Qed.

(** In runs that do not separate the two halves of an update (as a lock
    around line 78 would ensure) the counter is the number of jobs in
    flight and stays within the capacity. *)
Lemma undivided_counter_bound size err s callers w :
  0 <= size <= size_t_max -> Scheduler_new size err = inr s ->
  reachable_undivided s callers w ->
  countJobs (this w) = in_flight_total (threads w) /\
  0 <= countJobs (this w) <= maxJobsAllowed (this w).
Proof.
  intros Hsize Hnew Hr.
  destruct (counter_inv_reachable _ _ _ _ _ Hsize Hnew Hr) as [(_ & Hc & Hle & _) _].
  split; [exact Hc|]. pose proof (in_flight_total_nonneg (threads w)). lia.
Qed.

(** In such runs a counter of zero means that every job has run to its
    end, which is what makes [wait] a barrier. *)
Lemma undivided_zero_means_finished size err s callers w t k :
  0 <= size <= size_t_max -> Scheduler_new size err = inr s ->
  reachable_undivided s callers w ->
  countJobs (this w) = 0 -> threads w !! t = Some (Spawned k) ->
  wpc k = Finished.
Proof.
  intros Hsize Hnew Hr Hz Hth.
  destruct (undivided_counter_bound _ _ _ _ _ Hsize Hnew Hr) as [Hc _].
  pose proof (in_flight_total_lookup _ _ _ Hth) as Hle.
  rewrite <- Hc, Hz in Hle. simpl in Hle.
  destruct (wpc k); try lia. reflexivity.
Qed.

(** ** Quiescence *)

(** Without a new submission a quiescent program stays quiescent: the
    counter stays zero, so every later [wait] finds its predicate true. *)
Lemma quiescent_step w a w' :
  quiescent w -> is_submission a = false -> step w a = Some w' -> quiescent w'.
Proof.
  intros [Hz Hall] Hsub Hs.
  step_inv Hs; try discriminate Hsub;
    repeat match goal with
           | H : wpc ?k = _ |- _ => destruct k; simpl in H; subst
           end;
    repeat match goal with
           | H : threads w !! _ = Some _ |- _ =>
               apply Hall in H; simpl in H; try discriminate H
           end.
  all: split; [exact Hz|]; intros x thx Hx; simpl in *; thread_cases Hx; eauto.
Qed.

(** When no update of the counter was divided, a zero counter and no
    caller inside [schedule] mean quiescence. *)
Lemma undivided_zero_quiescent size err s callers w :
  0 <= size <= size_t_max -> Scheduler_new size err = inr s ->
  reachable_undivided s callers w ->
  countJobs (this w) = 0 ->
  (forall t pc, threads w !! t = Some (Caller pc) -> in_schedule pc = false) ->
  quiescent w.
Proof.
  intros Hsize Hnew Hr Hz Hout. split; [exact Hz|].
  intros t [pc|k] Hth; simpl.
  - by rewrite (Hout _ _ Hth).
  - by rewrite (undivided_zero_means_finished _ _ _ _ _ _ _ Hsize Hnew Hr Hz Hth).
Qed.

(** ** How threads move *)

(** How a thread inside [schedule] can move: it stays inside, or leaves by
    the return of line 81; it passes the admission wait only by its own
    look at the predicate, with [countJobs < maxJobsAllowed]. *)
Lemma schedule_moves w t pc a w' :
  threads w !! t = Some (Caller pc) -> in_schedule pc = true ->
  step w a = Some w' ->
  exists pc', threads w' !! t = Some (Caller pc') /\
    (in_schedule pc' = true \/ (pc' = Idle /\ pc = S80 /\ a = Exec t)) /\
    (past_admission pc = false -> past_admission pc' = true ->
       a = Exec t /\ countJobs (this w) < maxJobsAllowed (this w)) /\
    (forall d, a = Tick d -> pc' = pc).
Proof.
  intros Hth Hin Hs.
  step_inv Hs; simpl; where_is t; same_thread Hth; try discriminate Hin;
    repeat match goal with
           | H : (_ <? _) = true |- _ => apply Z.ltb_lt in H
           end.
  all: (eexists; split; [eassumption || reflexivity|]; simpl;
        repeat split; try done; try congruence; try (by left)).
  all: try (right; done).
Qed.

Lemma worker_moves w t k a w' :
  threads w !! t = Some (Spawned k) -> step w a = Some w' ->
  exists pc', threads w' !! t = Some (Spawned (at_pc k pc')) /\
    (pc' = wpc k \/ (a = Exec t \/ exists u, a = Notify t u)) /\
    (wpc k = L62 -> pc' = L62 \/
       (pc' = L66 /\ a = Exec t /\ started k + delay k <= clock w)).
Proof.
  intros Hth Hs. unfold at_pc.
  step_inv Hs; simpl; where_is t; same_thread Hth;
    repeat match goal with
           | H : (_ <=? _) = true |- _ => apply Z.leb_le in H
           end.
  all: try (exists (wpc k); destruct k; simpl; split; [eassumption || reflexivity|];
            split; [by left | by left]).
  all: (eexists; split; [reflexivity|]; split; [right; eauto|]; try congruence; eauto).
Qed.

(** One attempt at admission, on entry or after a wake-up, run without
    interference and with the mutex free: the job is admitted and its
    thread started when [countJobs < maxJobsAllowed], and the caller
    blocks otherwise. *)
Lemma admission_run w t pc j n :
  threads w !! t = Some (Caller pc) ->
  pc = S44 j n \/ pc = S47_woken j n ->
  mutex (this w) = None ->
  if countJobs (this w) <? maxJobsAllowed (this w)
  then exists w',
      exec w (replicate 6 (Exec t)) = Some w' /\
      threads w' = <[t := Caller Idle]> (threads w) ++
                   [Spawned {| job := j; delay := n; admitted_at := clock w;
                               started := clock w; wpc := L62 |}] /\
      this w' = set_countJobs (size_t_wrap (countJobs (this w) + 1)) (this w) /\
      clock w' = clock w /\ reported w' = reported w
  else exists w',
      exec w [Exec t; Exec t] = Some w' /\
      threads w' = <[t := Caller (S47_blocked j n)]> (threads w) /\
      this w' = set_condition (condition (this w) ++ [t]) (this w) /\
      clock w' = clock w /\ reported w' = reported w /\
      step w' (Exec t) = None.
Proof.
  intros Hth Hpc Hfree.
  assert (t < length (threads w))%nat as Hlt by eauto using lookup_lt_Some.
  destruct w as [[cond m mx er cnt] ths clk rep]. simpl in *. subst m.
  destruct (cnt <? mx) eqn:Hc.
  - eexists. split.
    + destruct Hpc as [-> | ->]; run_thread Hth; reflexivity.
    + simpl. repeat split.
      repeat first [ rewrite insert_app_l by length_side
                   | rewrite list_insert_insert_eq ].
      reflexivity.
  - eexists. split.
    + destruct Hpc as [-> | ->]; run_thread Hth; reflexivity.
    + simpl. repeat split.
      * by rewrite !list_insert_insert_eq.
      * run_thread Hth. reflexivity.
Qed.


(** * Properties stated by the specification *)

(** ** Construction *)

(** C5: constructing a Scheduler with a null error callback fails, at
    construction, with the [std::runtime_error] of line 37 (the
    configuration error), whatever the capacity; no Scheduler object
    results, so there is no instance on which a job could run. *)
Theorem null_callback_rejected (size : Z) :
  Scheduler_new size nullptr =
    inl (std_exception "non-null error callback required") /\
  (forall s, Scheduler_new size nullptr <> inr s).
Proof. split; [reflexivity | discriminate]. Qed.

(** C7: construction with a non-null error callback succeeds and yields a
    Scheduler whose in-flight counter is 0, with the given capacity and
    callback, a free mutex and nobody waiting on the condition; nothing
    else has happened: a program that starts with it has no spawned
    thread, no call of the error callback, and its callers are idle. *)
Theorem constructed_scheduler_is_idle size err :
  err <> nullptr ->
  exists s,
    Scheduler_new size err = inr s /\
    countJobs s = 0 /\ maxJobsAllowed s = size /\ error s = err /\
    mutex s = None /\ condition s = [] /\
    (forall callers,
       reported (boot s callers) = [] /\ clock (boot s callers) = 0 /\
       forall t th, threads (boot s callers) !! t = Some th -> th = Caller Idle).
Proof.
  intros Herr. destruct err; [done|]. eexists. split; [reflexivity|].
  repeat split. intros t th Hth. by apply lookup_replicate in Hth as [-> _].
Qed.

Lemma constructed_scheduler_is_idle_witness :
  callback <> nullptr /\
  exists s, Scheduler_new 2 callback = inr s /\ countJobs s = 0.
Proof.
  split; [discriminate|].
  destruct (constructed_scheduler_is_idle 2 callback) as (s & Hs & Hc & _);
    [discriminate|].
  exists s. by split.
Defined.

(** C9: a Scheduler constructed with capacity 0 is not rejected, and in
    every state the program can reach with it the counter is 0, nobody
    has ever been admitted (no caller is past the admission wait and no
    job thread exists), and a caller that is inside [schedule] is still
    inside it, before the admission, after any step: the call never
    returns. *)
Theorem zero_capacity_blocks_forever err callers :
  err <> nullptr ->
  exists s,
    Scheduler_new 0 err = inr s /\
    forall w, reachable s callers w ->
      countJobs (this w) = 0 /\
      (forall t th, threads w !! t = Some th -> never_admitted th) /\
      (forall t pc a w',
         threads w !! t = Some (Caller pc) -> in_schedule pc = true ->
         step w a = Some w' ->
         exists pc', threads w' !! t = Some (Caller pc') /\
                     in_schedule pc' = true /\ past_admission pc' = false).
Proof.
  intros Herr. destruct err; [done|]. eexists. split; [reflexivity|].
  intros w Hr.
  assert (closed_inv w) as (_ & Hcnt & Hinv)
      by (eapply closed_inv_reachable; [| |exact Hr]; reflexivity).
  split; [exact Hcnt|]. split; [exact Hinv|].
  intros t pc a w' Hth Hin Hs.
  assert (reachable (mkScheduler [] None 0 callback 0) callers w') as Hr'
      by (eapply reach_step; eassumption).
  assert (closed_inv w') as (_ & _ & Hinv')
      by (eapply closed_inv_reachable; [| |exact Hr']; reflexivity).
  destruct (schedule_moves _ _ _ _ _ Hth Hin Hs) as (pc' & Hth' & Hmove & _).
  exists pc'. split; [exact Hth'|].
  pose proof (Hinv _ _ Hth) as Hpc. pose proof (Hinv' _ _ Hth') as Hpc'.
  simpl in Hpc, Hpc'. split; [|exact Hpc'].
  destruct Hmove as [Hs' | (_ & -> & _)]; [exact Hs' | discriminate Hpc].
Qed.

Lemma zero_capacity_blocks_forever_witness :
  callback <> nullptr /\
  exists s w,
    Scheduler_new 0 callback = inr s /\
    exec (boot s 1) (call_alone 0%nat (schedule returns 0) 2) = Some w /\
    threads w !! 0%nat = Some (Caller (S47_blocked returns 0)) /\
    countJobs (this w) = 0.
Proof.
  split; [discriminate|].
  destruct (zero_capacity_blocks_forever callback 1) as (s & Hs & H);
    [discriminate|].
  injection Hs as <-.
  eexists _, _. split; [reflexivity|]. split; [vm_compute; reflexivity|].
  split; [reflexivity|].
  refine (proj1 (H _ _)).
  apply (exec_reachable _ _ (call_alone 0%nat (schedule returns 0) 2)).
  vm_compute. reflexivity.
Defined.

(** ** The counter *)

(** C1: the bound [0 <= countJobs <= maxJobsAllowed] is broken by a run of
    the constructed scheduler with two slots.  The decrement of line 78 is
    made without the mutex, so its load and its store can be separated by
    a whole call of [schedule]: thread 1 loads 1, the caller admits a
    second job (the counter becomes 2), thread 1 stores 0, and thread 2,
    the only job then running, loads 0 and stores [0 - 1], which wraps to
    [2^64 - 1]. *)
Theorem countJobs_wraps_past_capacity :
  Scheduler_new 2 callback = inr two_slots /\
  exists w,
    exec (boot two_slots 1) lost_update_run = Some w /\
    threads w =
      [Caller Idle;
       Spawned {| job := returns; delay := 0; admitted_at := 0; started := 0;
                  wpc := Finished |};
       Spawned {| job := returns; delay := 0; admitted_at := 0; started := 0;
                  wpc := Finished |}] /\
    maxJobsAllowed (this w) = 2 /\
    countJobs (this w) = size_t_max /\
    ~ (0 <= countJobs (this w) <= maxJobsAllowed (this w)).
Proof.
  split; [reflexivity|]. eexists. split; [vm_compute; reflexivity|].
  repeat split. simpl. unfold size_t_max, size_t_bits. lia.
Qed.

(** C2: the decrement of line 78 is not made under the lock, and the
    notification of line 77 comes before it.  In this run of a scheduler
    with one slot the job thread 1 notifies the caller blocked in [wait];
    the caller re-acquires the mutex; and thread 1 then takes the counter
    from 1 to 0 while the mutex is owned by thread 0 throughout. *)
Theorem decrement_outside_lock :
  Scheduler_new 1 callback = inr one_slot /\
  exists w w',
    exec (boot one_slot 1) notify_run = Some w /\
    threads w !! 0%nat = Some (Caller W89) /\
    threads w !! 1%nat =
      Some (Spawned {| job := returns; delay := 0; admitted_at := 0; started := 0;
                       wpc := L78_load |}) /\
    mutex (this w) = Some 0%nat /\ countJobs (this w) = 1 /\
    exec w [Exec 1%nat; Exec 1%nat] = Some w' /\
    mutex (this w') = Some 0%nat /\ countJobs (this w') = 0.
Proof.
  split; [reflexivity|]. eexists _, _. split; [vm_compute; reflexivity|].
  repeat split.
Qed.

(** The notification of line 77 comes before the decrement of line 78:
    the woken caller may look at a counter that has not gone down yet,
    block again, and never be notified. *)
Lemma lost_wakeup :
  exists w,
    exec (boot one_slot 1) (notify_run ++ [Exec 0%nat; Exec 1%nat; Exec 1%nat]) = Some w /\
    countJobs (this w) = 0 /\
    threads w =
      [Caller W89_blocked;
       Spawned {| job := returns; delay := 0; admitted_at := 0; started := 0;
                  wpc := Finished |}] /\
    step w (Exec 0%nat) = None /\ step w (Exec 1%nat) = None.
Proof.
  eexists. split; [vm_compute; reflexivity|]. repeat split.
Qed.

(** ** Jobs that throw *)

(** C3, as amended: for a job whose operation throws [e], the error
    callback has been called by the job's thread exactly once as soon as
    the [try] statement is left, and not at all before; what it received
    is the thrown object itself when that derives from [std::exception]
    (so the text is the object's own [what()], empty if that is empty)
    and a [std::runtime_error] with the text "Unknown" otherwise.  The
    throw goes no further than the handler: the two statements after the
    call of the operation change the thread's own program point, now line
    77, and the callback's record, and nothing else. *)
Theorem failure_reported_once s callers w t k e :
  reachable s callers w -> threads w !! t = Some (Spawned k) ->
  job k = throws e ->
  reports_of t w = (if handled (wpc k) then [description e] else []) /\
  (e = other_value -> description e = "Unknown") /\
  (forall what, e = std_exception what -> description e = what) /\
  (wpc k = L66 ->
     exec w [Exec t; Exec t] =
     Some (set_thread t (Spawned (at_pc k L77)) (report t (description e) w))).
Proof.
  intros Hr Hth Hjob.
  destruct (report_inv_reachable _ _ _ Hr) as [Hinv _].
  destruct (Hinv _ _ Hth) as [_ Hrep]. simpl in Hrep. rewrite Hjob in Hrep.
  split; [exact Hrep|]. split; [by intros ->|]. split; [by intros what ->|].
  intros Hpc.
  assert (t < length (threads w))%nat as Hlt by eauto using lookup_lt_Some.
  destruct w as [sch ths clk rep], k as [jb dl ad st pc]. simpl in *. subst jb pc.
  destruct e as [what|]; run_thread Hth;
    unfold wgoto, set_thread, report, at_pc; simpl;
    by rewrite list_insert_insert_eq.
Qed.

Lemma failure_reported_once_witness :
  exists w,
    reachable one_slot 1 w /\
    threads w !! 1%nat =
      Some (Spawned {| job := throws other_value; delay := 0; admitted_at := 0;
                       started := 0; wpc := Finished |}) /\
    reports_of 1%nat w = ["Unknown"].
Proof.
  pose (tr := call_alone 0%nat (schedule (throws other_value) 0) 6 ++
              replicate 6 (Exec 1%nat)).
  destruct (exec (boot one_slot 1) tr) as [w|] eqn:Hw; [|vm_compute in Hw; discriminate].
  exists w.
  assert (reachable one_slot 1 w) as Hr by (eapply exec_reachable; exact Hw).
  vm_compute in Hw. injection Hw as <-.
  split; [exact Hr|]. split; [reflexivity|].
  destruct (failure_reported_once _ _ _ 1%nat _ other_value Hr eq_refl eq_refl)
    as (H & _). exact H.
Defined.

(** C3, as stated, fails: a job that throws a [std::runtime_error] built
    from the empty string is reported with that very object, and the
    description the callback receives is empty. *)
Lemma empty_description_reported :
  exists w,
    exec (boot one_slot 1) empty_what_run = Some w /\
    threads w !! 1%nat =
      Some (Spawned {| job := throws (std_exception EmptyString); delay := 0;
                       admitted_at := 0; started := 0; wpc := Finished |}) /\
    reported w = [(1%nat, EmptyString)] /\
    ~ (forall r, r ∈ reported w -> snd r <> EmptyString).
Proof.
  eexists. split; [vm_compute; reflexivity|].
  split; [reflexivity|]. split; [reflexivity|].
  intros H. apply (H (1%nat, EmptyString)); [|reflexivity]. simpl. left.
Qed.

(** C10: the error callback is called for a job if and only if its
    operation threw.  A job whose operation returns is never reported;
    once a job's thread has left the [try] statement it has been reported
    exactly when the operation threw; and every call the callback has
    received came from the thread of a job that threw. *)
Theorem callback_iff_raised s callers w t k :
  reachable s callers w -> threads w !! t = Some (Spawned k) ->
  (job k = returns -> reports_of t w = []) /\
  (handled (wpc k) = true ->
     (reports_of t w <> [] <-> exists e, job k = throws e)) /\
  (forall u d, (u, d) ∈ reported w ->
     exists k' e, threads w !! u = Some (Spawned k') /\ job k' = throws e /\
                  handled (wpc k') = true).
Proof.
  intros Hr Hth.
  destruct (report_inv_reachable _ _ _ Hr) as [Hinv Hout].
  destruct (Hinv _ _ Hth) as [_ Hrep]. simpl in Hrep.
  split; [|split].
  - intros Hjob. by rewrite Hjob in Hrep.
  - intros Hh. rewrite Hrep, Hh. destruct (job k) as [|e].
    + split; [done|]. by intros [e He].
    + split; [eauto|done].
  - intros u d Hin. apply reports_in_elem in Hin.
    destruct (threads w !! u) as [th|] eqn:Hu.
    + destruct (Hinv _ _ Hu) as [_ Hrep']. unfold reports_of in Hrep'.
      rewrite Hrep' in Hin. destruct th as [pc|k']; simpl in Hin.
      * by apply elem_of_nil in Hin.
      * destruct (job k') as [|e] eqn:Hj; [by apply elem_of_nil in Hin|].
        destruct (handled (wpc k')) eqn:Hh; [|by apply elem_of_nil in Hin].
        eauto.
    + apply lookup_ge_None in Hu. apply Hout in Hu. unfold reports_of in Hu.
      rewrite Hu in Hin. by apply elem_of_nil in Hin.
Qed.

Lemma callback_iff_raised_witness :
  exists w,
    reachable one_slot 1 w /\
    threads w !! 1%nat =
      Some (Spawned {| job := returns; delay := 0; admitted_at := 0;
                       started := 0; wpc := Finished |}) /\
    reports_of 1%nat w = [].
Proof.
  pose (tr := call_alone 0%nat (schedule returns 0) 6 ++ replicate 5 (Exec 1%nat)).
  destruct (exec (boot one_slot 1) tr) as [w|] eqn:Hw; [|vm_compute in Hw; discriminate].
  exists w.
  assert (reachable one_slot 1 w) as Hr by (eapply exec_reachable; exact Hw).
  vm_compute in Hw. injection Hw as <-.
  split; [exact Hr|]. split; [reflexivity|].
  destruct (callback_iff_raised _ _ _ 1%nat _ Hr eq_refl) as (H & _).
  by apply H.
Defined.

(** ** [wait] *)

(** A caller inside [wait] while the counter is not zero and no job
    thread is left to change it: whatever it does, it stays inside. *)
Lemma hung_in_wait_goto c w pc' f :
  hung_in_wait c w -> in_wait pc' = true ->
  countJobs (f (this w)) = countJobs (this w) ->
  hung_in_wait c (goto 0%nat pc' (upd_this f w)).
Proof.
  intros (Hcnt & (pc & Hth & Hin) & Hall) Hin' Hf.
  pose proof (lookup_lt_Some _ _ _ Hth) as Hlt.
  split; [simpl; congruence|]. split.
  - exists pc'. split; [|exact Hin']. simpl. by rewrite list_lookup_insert_eq.
  - intros t th Ht Hne. simpl in Ht.
    rewrite list_lookup_insert_ne in Ht by congruence. exact (Hall t th Ht Hne).
Qed.

Lemma hung_in_wait_step c w a w' :
  c <> 0 -> hung_in_wait c w -> step w a = Some w' -> hung_in_wait c w'.
Proof.
  intros Hc Hh Hs. pose proof Hh as (Hcnt & (pc & Hth & Hin) & Hall).
  assert (forall t, t <> 0%nat ->
            threads w !! t = None \/
            exists k, threads w !! t = Some (Spawned k) /\ wpc k = Finished)
    as Hrest.
  { intros t Hne. destruct (threads w !! t) as [th|] eqn:Ht; [|by left].
    right. destruct (Hall _ _ Ht Hne) as (k & -> & Hk). by exists k. }
  unfold step in Hs. unfold tid in *.
  destruct a as [t cl|t|t u|u|d].
  - destruct (decide (t = 0%nat)) as [->|Hne].
    + rewrite Hth in Hs. destruct pc; discriminate.
    + destruct (Hrest t Hne) as [Hn|(k & Hk & _)]; rewrite ?Hn, ?Hk in Hs;
        discriminate.
  - destruct (decide (t = 0%nat)) as [->|Hne].
    + rewrite Hth in Hs.
      destruct pc; try discriminate Hin; simpl in Hs; unfold acquire in Hs.
      * destruct (mutex (this w)); [discriminate|]. simplify_eq.
        by apply hung_in_wait_goto.
      * destruct (countJobs (this w) =? 0) eqn:Hz.
        { apply Z.eqb_eq in Hz. congruence. }
        simplify_eq. by apply hung_in_wait_goto.
      * discriminate.
      * destruct (mutex (this w)); [discriminate|]. simplify_eq.
        by apply hung_in_wait_goto.
    + destruct (Hrest t Hne) as [Hn|(k & Hk & Hf)]; rewrite ?Hn, ?Hk in Hs;
        [discriminate|].
      unfold step_worker in Hs. rewrite Hf in Hs. discriminate.
  - destruct (decide (t = 0%nat)) as [->|Hne].
    + rewrite Hth in Hs. discriminate.
    + destruct (Hrest t Hne) as [Hn|(k & Hk & Hf)]; rewrite ?Hn, ?Hk in Hs;
        [discriminate|].
      rewrite Hf in Hs. discriminate.
  - unfold unblock in Hs. unfold tid in *.
    destruct (is_waiting u (this w)); [|discriminate].
    destruct (decide (u = 0%nat)) as [->|Hne].
    + rewrite Hth in Hs. destruct pc; try discriminate Hin; try discriminate Hs.
      simplify_eq. by apply hung_in_wait_goto.
    + destruct (Hrest u Hne) as [Hn|(k & Hk & Hf)]; rewrite ?Hn, ?Hk in Hs;
        discriminate.
  - destruct (0 <? d); [|discriminate]. simplify_eq. exact Hh.
Qed.

Lemma hung_in_wait_run c tr : forall w w',
  c <> 0 -> hung_in_wait c w -> exec w tr = Some w' -> hung_in_wait c w'.
Proof.
  induction tr as [|a tr IH]; intros w w' Hc Hh Hex; simpl in Hex.
  - by simplify_eq.
  - destruct (step w a) as [w1|] eqn:Hs; [|discriminate].
    eapply IH; [exact Hc| |exact Hex]. by eapply hung_in_wait_step.
Qed.

(** C4: [wait] does not always return at once when called again without
    a submission in between, and a zero read by its predicate does not
    mean that the jobs are over.  On the scheduler of [main], thread 0
    submits two jobs; the thread of the first loads the counter for line
    78, the second job is admitted, and the first thread stores zero.
    The call of [wait] then reads zero and returns while the second job
    has not begun.  That job now runs to its end: line 78 loads zero and
    stores [0 - 1], which is [2^64 - 1].  Thread 0 calls [wait] again,
    nothing having been submitted: it finds the counter not zero, blocks,
    and, whatever happens from then on, spurious wake-ups included,
    never comes back, the counter staying at [2^64 - 1]. *)
Theorem second_wait_never_returns :
  Scheduler_new 2 callback = inr two_slots /\
  exists w0 w,
    exec (boot two_slots 1) (early_return_run returns 0 returns 0) = Some w0 /\
    threads w0 =
      [Caller Idle;
       Spawned {| job := returns; delay := 0; admitted_at := 0; started := 0;
                  wpc := Finished |};
       Spawned {| job := returns; delay := 0; admitted_at := 1; started := 1;
                  wpc := L62 |}] /\
    countJobs (this w0) = 0 /\
    exec w0 (replicate 5 (Exec 2%nat) ++ call_alone 0%nat wait 2) = Some w /\
    entered second_wait_run =
      [schedule returns 0; schedule returns 0; wait; wait] /\
    threads w =
      [Caller W89_blocked;
       Spawned {| job := returns; delay := 0; admitted_at := 0; started := 0;
                  wpc := Finished |};
       Spawned {| job := returns; delay := 0; admitted_at := 1; started := 1;
                  wpc := Finished |}] /\
    countJobs (this w) = size_t_max /\
    forall tr w',
      exec w tr = Some w' ->
      countJobs (this w') = size_t_max /\
      exists pc, threads w' !! 0%nat = Some (Caller pc) /\ in_wait pc = true.
Proof.
  split; [reflexivity|]. eexists _, _.
  split; [vm_compute; reflexivity|]. split; [reflexivity|].
  split; [reflexivity|]. split; [vm_compute; reflexivity|].
  split; [reflexivity|]. split; [reflexivity|]. split; [reflexivity|].
  intros tr w' Hex.
  assert (size_t_max <> 0) as Hne by (unfold size_t_max, size_t_bits; lia).
  eapply (hung_in_wait_run size_t_max) in Hex as (Hc & Hpc & _);
    [by split|exact Hne|].
  split; [reflexivity|]. split.
  - by exists W89_blocked.
  - intros t th Hth Ht. destruct t as [|[|[|t]]]; simplify_eq/=; eauto.
Qed.

(** ** [schedule] *)

(** When every caller is blocked and every job thread is over, time is
    all that passes, short of a spurious wake-up. *)
Lemma all_asleep_step w a w' :
  all_asleep w -> step w a = Some w' -> is_spurious a = false ->
  exists d, w' = advance d w.
Proof.
  intros Hall Hs Hsp.
  step_inv Hs; try discriminate Hsp;
    repeat match goal with
           | H : threads _ !! _ = Some _ |- _ =>
               apply Hall in H; simpl in H; try discriminate H
           end;
    try congruence.
  by eexists.
Qed.

Lemma all_asleep_run tr : forall w w',
  all_asleep w -> exec w tr = Some w' ->
  forallb (fun a => negb (is_spurious a)) tr = true ->
  threads w' = threads w /\ this w' = this w.
Proof.
  induction tr as [|a tr IH]; intros w w' Hall Hex Hno; simpl in Hex, Hno.
  - by simplify_eq.
  - apply andb_prop in Hno as [Ha Hno]. apply Bool.negb_true_iff in Ha.
    destruct (step w a) as [w1|] eqn:Hs; [|discriminate].
    destruct (all_asleep_step _ _ _ Hall Hs Ha) as [d ->].
    apply (IH (advance d w) w'); [exact Hall|exact Hex|exact Hno].
Qed.

(** C6: [schedule] can stay blocked although [countJobs] is below
    [maxJobsAllowed].  On a scheduler with one slot, thread 0 submits a
    job and calls [schedule] again, which blocks at line 47 with the
    counter at one.  The thread of the first job runs it and notifies at
    line 77; thread 0 wakes, takes the mutex, still reads one and blocks
    again; only then does line 78 bring the counter to zero.  Now no job
    is in flight, the counter is [0 < 1] and the mutex is free, yet
    thread 0 stays inside [condition.wait] for as long as no spurious
    wake-up occurs: nobody is left to notify it, and the second job is
    never started. *)
Theorem schedule_blocks_with_a_free_slot :
  Scheduler_new 1 callback = inr one_slot /\
  exists w,
    exec (boot one_slot 1) blocked_submitter_run = Some w /\
    threads w =
      [Caller (S47_blocked (throws other_value) 5);
       Spawned {| job := returns; delay := 0; admitted_at := 0; started := 0;
                  wpc := Finished |}] /\
    countJobs (this w) = 0 /\ maxJobsAllowed (this w) = 1 /\
    in_flight_total (threads w) = 0 /\ mutex (this w) = None /\
    forall tr w',
      exec w tr = Some w' ->
      forallb (fun a => negb (is_spurious a)) tr = true ->
      threads w' = threads w /\ countJobs (this w') = 0.
Proof.
  split; [reflexivity|]. eexists.
  split; [vm_compute; reflexivity|]. split; [reflexivity|].
  split; [reflexivity|]. split; [reflexivity|]. split; [reflexivity|].
  split; [reflexivity|].
  intros tr w' Hex Hno.
  match type of Hex with
  | exec ?w _ = _ =>
      assert (all_asleep w) as Hall
        by (intros t th Hth; destruct t as [|[|t]]; simplify_eq/=; reflexivity)
  end.
  destruct (all_asleep_run _ _ _ Hall Hex Hno) as [Hth Hthis].
  split; [exact Hth|]. by rewrite Hthis.
Qed.

(** C8: a spawned thread that has left its sleep of line 62, in
    particular one about to call the operation, finds the clock at least
    [delay] past the moment its job was admitted.  No step of the program
    removes the thread or changes its job or delay; from the sleep it can
    only go on to the call of line 66, by its own step, once the delay is
    over; and the sleep does end: after enough time the thread steps on
    to the call. *)
Theorem delay_elapses_before_operation s callers w t k :
  reachable s callers w -> threads w !! t = Some (Spawned k) ->
  (wpc k <> L62 -> admitted_at k + delay k <= clock w) /\
  (forall a w', step w a = Some w' ->
     exists pc', threads w' !! t = Some (Spawned (at_pc k pc')) /\
       (wpc k = L62 ->
          pc' = L62 \/
          (pc' = L66 /\ a = Exec t /\ admitted_at k + delay k <= clock w))) /\
  (wpc k = L62 ->
     exists d, 0 < d /\
       exec w [Tick d; Exec t] =
       Some (set_thread t (Spawned (at_pc k L66)) (advance d w))).
Proof.
  intros Hr Hth.
  pose proof (time_inv_reachable _ _ _ Hr _ _ Hth) as (Ha & Hs & Hd). simpl in *.
  split; [|split].
  - intros Hpc. specialize (Hd Hpc). lia.
  - intros a w' Hstep.
    destruct (worker_moves _ _ _ _ _ Hth Hstep) as (pc' & Hth' & _ & Hmove).
    exists pc'. split; [done|]. intros Hpc.
    destruct (Hmove Hpc) as [-> | (-> & -> & Hle)]; [by left|].
    right. repeat split; try done. lia.
  - intros Hpc. exists (Z.max 1 (started k + delay k - clock w)).
    split; [lia|].
    assert ((0 <? Z.max 1 (started k + delay k - clock w)) = true) as Hpos
        by (apply Z.ltb_lt; lia).
    assert ((started k + delay k <=?
             clock w + Z.max 1 (started k + delay k - clock w)) = true) as Hup
        by (apply Z.leb_le; lia).
    simpl. rewrite Hpos. simpl. rewrite Hth. unfold step_worker.
    rewrite Hpc. simpl. rewrite Hup. reflexivity.
Qed.

Lemma delay_elapses_before_operation_witness :
  exists w k,
    reachable two_slots 1 w /\
    threads w !! 1%nat = Some (Spawned k) /\
    wpc k = L66 /\ delay k = 250 /\
    admitted_at k + delay k <= clock w.
Proof.
  pose (tr := call_alone 0%nat (schedule returns 250) 6 ++ [Tick 250; Exec 1%nat]).
  destruct (exec (boot two_slots 1) tr) as [w|] eqn:Hw;
    [|vm_compute in Hw; discriminate].
  assert (reachable two_slots 1 w) as Hr by (eapply exec_reachable; exact Hw).
  vm_compute in Hw. injection Hw as <-.
  eexists _, _. split; [exact Hr|]. split; [reflexivity|].
  split; [reflexivity|]. split; [reflexivity|].
  refine (proj1 (delay_elapses_before_operation _ _ _ 1%nat _ Hr eq_refl) _).
  discriminate.
Defined.

(** * Lemmas on the wait set, single callers and [main] *)

(** ** The wait set *)

(** [is_waiting] and [drop_waiter] in terms of membership. *)
Lemma is_waiting_elem t s : is_waiting t s = true <-> t ∈ condition s.
Proof.
  unfold is_waiting. rewrite existsb_exists. split.
  - intros (x & Hin & Heq). apply Nat.eqb_eq in Heq. subst x.
    by apply list_elem_of_In.
  - intros Hin. exists t. split; [by apply list_elem_of_In | apply Nat.eqb_refl].
Qed.

Lemma drop_waiter_elem t x c : x ∈ drop_waiter t c <-> x ∈ c /\ x <> t.
Proof.
  unfold drop_waiter. rewrite list_elem_of_In, List.filter_In.
  rewrite <- list_elem_of_In, Bool.negb_true_iff, Nat.eqb_neq.
  split; intros [H1 H2]; split; congruence.
Qed.

Lemma drop_waiter_NoDup t c : NoDup c -> NoDup (drop_waiter t c).
Proof.
  intros H. apply NoDup_ListNoDup. apply List.NoDup_filter.
  by apply NoDup_ListNoDup.
Qed.

(** Blocking adds the blocking thread to the wait set, a wake-up removes
    the woken one, and no other step touches either. *)
Lemma condition_inv_step w a w' :
  condition_inv w -> step w a = Some w' -> condition_inv w'.
Proof.
  intros (Hnd & Hlt & Hall) Hs.
  assert (forall t th, threads w !! t = Some th -> is_blocked th = false ->
                       t ∉ condition (this w)) as Hout.
  { intros t th Hth Hb Hin. apply (Hall _ _ Hth) in Hin. congruence. }
  split; [|split].
  - step_inv Hs; simpl;
      try match goal with H : condition _ = _ |- _ => rewrite H end;
      try exact Hnd; try (apply drop_waiter_NoDup; exact Hnd).
    all: apply NoDup_app; split; [exact Hnd|]; split; [|apply NoDup_singleton].
    all: intros x Hx ->%list_elem_of_singleton; revert Hx; eapply Hout; eauto.
  - intros x Hx. step_inv Hs; simpl in *;
      try match goal with H : condition _ = _ |- _ => rewrite H in * end;
      rewrite ?length_insert, ?length_app; simpl;
      rewrite ?drop_waiter_elem, ?elem_of_app, ?list_elem_of_singleton in Hx;
      repeat match goal with
             | H : threads _ !! _ = Some _ |- _ => apply lookup_lt_Some in H
             end;
      destruct_or?; destruct_and?; subst; try lia.
    all: try match goal with
         | H : _ ∈ condition _ |- _ => apply Hlt in H; lia
         end.
    all: by apply elem_of_nil in Hx.
  - intros x thx Hx.
    step_inv Hs; simpl in *; thread_cases Hx; simpl;
      try match goal with H : condition _ = _ |- _ => rewrite H in * end;
      repeat match goal with
             | H : is_waiting _ _ = true |- _ => apply is_waiting_elem in H
             end;
      rewrite ?drop_waiter_elem, ?elem_of_app, ?list_elem_of_singleton;
      repeat match goal with
             | H : threads _ !! _ = Some _ |- _ =>
                 pose proof (Hall _ _ H); clear H
             end; simpl in *.
    all: rewrite ?elem_of_nil.
    all: try (intuition congruence).
    all: try (destruct thx as [pcx|kx]; simpl in *; intuition congruence).
    all: try (split; [intros Hin; apply Hlt in Hin; lia | discriminate]).
    rewrite elem_of_nil in *. tauto.
Qed.

Lemma condition_inv_reachable s callers w :
  condition s = [] -> reachable s callers w -> condition_inv w.
Proof.
  intros Hc. induction 1 as [|w a w' _ IH Hs].
  - unfold condition_inv. simpl. rewrite Hc.
    split; [constructor|]. split; [by intros t ?%elem_of_nil|].
    intros t th Hth. apply lookup_replicate in Hth as [-> _]. simpl.
    rewrite elem_of_nil. naive_solver.
  - eapply condition_inv_step; eassumption.
Qed.

(** ** The owner of the mutex, and what a step leaves alone *)

(** The mutex is only ever taken by a thread of the table. *)
Lemma owner_known_step w a w' :
  owner_known w -> step w a = Some w' -> owner_known w'.
Proof.
  intros Hinv Hs u Hu.
  step_inv Hs; simpl in *; rewrite ?length_insert, ?length_app; simpl;
    simplify_eq;
    repeat match goal with
           | H : threads _ !! _ = Some _ |- _ => apply lookup_lt_Some in H
           end;
    try lia; try (apply Hinv in Hu; lia).
Qed.

Lemma owner_known_reachable s callers w :
  mutex s = None -> reachable s callers w -> owner_known w.
Proof.
  intros Hm. induction 1 as [|w a w' _ IH Hs].
  - intros t Ht. simpl in Ht. congruence.
  - eapply owner_known_step; eassumption.
Qed.

(** What a step leaves alone. *)
Lemma step_frame w a w' :
  step w a = Some w' ->
  maxJobsAllowed (this w') = maxJobsAllowed (this w) /\
  error (this w') = error (this w) /\
  clock w <= clock w' /\
  (length (threads w) <= length (threads w'))%nat /\
  exists extra, reported w' = reported w ++ extra /\ (length extra <= 1)%nat.
Proof.
  intros Hs.
  step_inv Hs; simpl; rewrite ?length_insert, ?length_app; simpl;
    repeat match goal with
           | H : (_ <? _) = true |- _ => apply Z.ltb_lt in H
           end;
    repeat split; try lia;
    first [ exists []; rewrite app_nil_r; split; [reflexivity | simpl; lia]
          | eexists [_]; split; [reflexivity | simpl; lia] ].
Qed.

(** ** Programs with one calling thread *)

(** The calls of a run made of two. *)
Lemma entered_app tr1 tr2 : entered (tr1 ++ tr2) = entered tr1 ++ entered tr2.
Proof.
  induction tr1 as [|[] tr1 IH]; simpl; try done. by rewrite IH.
Qed.

Lemma submissions_app cs1 cs2 :
  submissions (cs1 ++ cs2) = submissions cs1 ++ submissions cs2.
Proof.
  induction cs1 as [|[] cs1 IH]; simpl; try done. by rewrite IH.
Qed.

Lemma captured_at_pc (ks : list Worker) (t : nat) k pc :
  ks !! t = Some k -> captured <$> <[t := at_pc k pc]> ks = captured <$> ks.
Proof.
  intros Hk. rewrite list_fmap_insert. apply list_insert_id.
  rewrite list_lookup_fmap, Hk. reflexivity.
Qed.

(** With a single caller the table is that caller followed by the spawned
    threads in the order of their creation. *)
Lemma single_caller_step pc ks w a w' :
  threads w = Caller pc :: (Spawned <$> ks) -> step w a = Some w' ->
  exists pc' ks',
    threads w' = Caller pc' :: (Spawned <$> ks') /\
    (captured <$> ks') ++ pending pc' =
    (captured <$> ks) ++ pending pc ++ submissions (entered [a]).
Proof.
  intros Hth Hs.
  step_inv Hs; simpl; rewrite Hth in *;
    repeat match goal with
           | H : (_ :: _) !! ?t = Some _ |- _ =>
               destruct t as [|?]; simpl in H;
               [ | rewrite list_lookup_fmap in H;
                   match type of H with
                   | context [?l !! ?i] => destruct (l !! i) eqn:?
                   end; simpl in H ];
               simplify_eq
           end; simpl.
  all: try (eexists _, ks; split; [reflexivity|]; simpl; by rewrite ?app_nil_r).
  1: { eexists S80, (ks ++ [_]). rewrite !fmap_app. simpl.
       split; [reflexivity | by rewrite app_nil_r]. }
  all: eexists _, (<[_ := at_pc _ _]> ks); rewrite list_fmap_insert;
    (split; [reflexivity|]); rewrite captured_at_pc by eassumption;
    simpl; rewrite ?app_nil_r; try reflexivity.
Qed.

(** The same along a run: what the threads hold and what the caller is
    about to hand over are the submissions made. *)
Lemma single_caller_run tr : forall pc ks w w',
  threads w = Caller pc :: (Spawned <$> ks) -> exec w tr = Some w' ->
  exists pc' ks',
    threads w' = Caller pc' :: (Spawned <$> ks') /\
    (captured <$> ks') ++ pending pc' =
    (captured <$> ks) ++ pending pc ++ submissions (entered tr).
Proof.
  induction tr as [|a tr IH]; intros pc ks w w' Hth Hex; simpl in Hex.
  - simplify_eq. exists pc, ks. simpl. by rewrite app_nil_r.
  - destruct (step w a) as [w1|] eqn:Hs; [|discriminate].
    destruct (single_caller_step _ _ _ _ _ Hth Hs) as (pc1 & ks1 & Hth1 & Heq1).
    destruct (IH _ _ _ _ Hth1 Hex) as (pc' & ks' & Hth' & Heq').
    exists pc', ks'. split; [exact Hth'|].
    rewrite Heq', app_assoc, Heq1. change (a :: tr) with ([a] ++ tr).
    rewrite entered_app, submissions_app. by rewrite <- !app_assoc.
Qed.

(** A run that obeys [undivided] at every step stays within
    [reachable_undivided]. *)
Lemma undivided_run_reachable s callers tr : forall w w',
  reachable_undivided s callers w -> undivided_run w tr ->
  exec w tr = Some w' -> reachable_undivided s callers w'.
Proof.
  induction tr as [|a tr IH]; intros w w' Hr Hu Hex; simpl in *.
  - by simplify_eq.
  - destruct Hu as [Hu1 Hu2]. destruct (step w a) as [w1|] eqn:Hs; [|discriminate].
    eapply IH; [|exact Hu2|exact Hex]. eapply undivided_step; eassumption.
Qed.

Lemma undivided_run_app tr1 : forall tr2 w w1,
  exec w tr1 = Some w1 -> undivided_run w (tr1 ++ tr2) ->
  undivided_run w tr1 /\ undivided_run w1 tr2.
Proof.
  induction tr1 as [|a tr1 IH]; intros tr2 w w1 Hex Hu; simpl in *.
  - by simplify_eq.
  - destruct Hu as [Hu1 Hu2]. destruct (step w a) as [w'|] eqn:Hs; [|discriminate].
    destruct (IH _ _ _ Hex Hu2) as [H1 H2]. by repeat split.
Qed.

(** How a caller moves: by entering a member function when idle, inside
    the function it has entered, and back to idle by returning. *)
Lemma caller_moves w t pc a w' :
  threads w !! t = Some (Caller pc) -> step w a = Some w' ->
  exists pc', threads w' !! t = Some (Caller pc') /\
    match a with
    | Enter u c =>
        if decide (u = t) then pc = Idle /\ inside c pc' = true else pc' = pc
    | _ =>
        (pc = Idle -> pc' = Idle) /\
        (in_schedule pc = true -> in_schedule pc' = true \/ pc' = Idle) /\
        (in_wait pc = true ->
           in_wait pc' = true \/
           (pc' = Idle /\ a = Exec t /\ countJobs (this w') = 0))
    end.
Proof.
  intros Hth Hs.
  step_inv Hs; simpl; where_is t; same_thread Hth;
    repeat match goal with
           | H : (_ =? _) = true |- _ => apply Z.eqb_eq in H
           end;
    try case_decide; simplify_eq.
  all: eexists; (split; [eassumption || reflexivity|]); simpl.
  all: try done.
  all: try (repeat split; intros; try done; try congruence; auto).
Qed.

Lemma single_caller_table s tr w :
  exec (boot s 1) tr = Some w ->
  exists pc ks, threads w = Caller pc :: (Spawned <$> ks) /\
    (captured <$> ks) ++ pending pc = submissions (entered tr).
Proof.
  intros Hex.
  destruct (single_caller_run tr Idle [] (boot s 1) w eq_refl Hex)
    as (pc & ks & Hth & Heq).
  exists pc, ks. by split.
Qed.

(** Only thread 0 can enter a member function. *)
Lemma only_caller_enters s tr w u c w' :
  exec (boot s 1) tr = Some w -> step w (Enter u c) = Some w' -> u = 0%nat.
Proof.
  intros Hex Hs. destruct (single_caller_table _ _ _ Hex) as (pc & ks & Hth & _).
  unfold step in Hs. rewrite Hth in Hs. destruct u as [|u]; [done|].
  simpl in Hs. rewrite list_lookup_fmap in Hs.
  destruct (ks !! u); simpl in Hs; discriminate.
Qed.

(** With a single caller, the caller is idle or inside the member
    function it entered last. *)
Lemma call_matches s tr : forall w,
  exec (boot s 1) tr = Some w ->
  exists pc, threads w !! 0%nat = Some (Caller pc) /\
    match last (entered tr) with
    | None => pc = Idle
    | Some c => pc = Idle \/ inside c pc = true
    end.
Proof.
  induction tr as [|a tr IH] using rev_ind; intros w Hex.
  - simpl in Hex. simplify_eq. by exists Idle.
  - rewrite exec_app in Hex.
    destruct (exec (boot s 1) tr) as [w0|] eqn:Hex0; [|discriminate].
    simpl in Hex. destruct (step w0 a) as [w1|] eqn:Hs; [|discriminate].
    simplify_eq.
    destruct (IH _ eq_refl) as (pc0 & Hth0 & Hm0).
    destruct (caller_moves _ _ _ _ _ Hth0 Hs) as (pc' & Hth' & Hmove).
    exists pc'. split; [exact Hth'|]. rewrite entered_app.
    destruct a as [u c|u|u v|u|d]; simpl in *; rewrite ?app_nil_r.
    1: { rewrite last_snoc.
         pose proof (only_caller_enters _ _ _ _ _ _ Hex0 Hs) as ->.
         rewrite decide_True in Hmove by done. right. apply Hmove. }
    all: destruct Hmove as (Hi & Hsch & Hw);
      destruct (last (entered tr)) as [[j n|]|]; simpl in *; intuition.
Qed.

(** Thread 0 is the only caller of the table. *)
Lemma single_caller_others s tr w t pc :
  exec (boot s 1) tr = Some w -> threads w !! t = Some (Caller pc) -> t = 0%nat.
Proof.
  intros Hex Hth. destruct (single_caller_table _ _ _ Hex) as (pc0 & ks & Hw & _).
  rewrite Hw in Hth. destruct t as [|t]; [done|].
  simpl in Hth. rewrite list_lookup_fmap in Hth.
  destruct (ks !! t); simpl in Hth; discriminate.
Qed.

(** With a single caller and no divided update, [wait] is a barrier: once
    it has returned, and until the next call, the counter is zero and
    every job thread has run to its end. *)
Lemma single_caller_barrier size err s tr : forall w,
  0 <= size <= size_t_max -> Scheduler_new size err = inr s ->
  exec (boot s 1) tr = Some w -> undivided_run (boot s 1) tr ->
  last (entered tr) = Some wait -> threads w !! 0%nat = Some (Caller Idle) ->
  quiescent w.
Proof.
  induction tr as [|a tr IH] using rev_ind; intros w Hsize Hnew Hex Hund Hlast Hidle.
  - discriminate Hlast.
  - pose proof Hex as Hex'. rewrite exec_app in Hex.
    destruct (exec (boot s 1) tr) as [w0|] eqn:Hex0; [|discriminate].
    simpl in Hex. destruct (step w0 a) as [w1|] eqn:Hs; [|discriminate].
    assert (w1 = w) as -> by congruence. clear Hex.
    destruct (undivided_run_app _ _ _ _ Hex0 Hund) as [Hund0 _].
    destruct (call_matches _ _ _ Hex0) as (pc0 & Hth0 & Hm0).
    destruct (caller_moves _ _ _ _ _ Hth0 Hs) as (pc' & Hth' & Hmove).
    unfold tid in *. rewrite Hidle in Hth'. injection Hth' as <-.
    rewrite entered_app in Hlast.
    destruct (is_enter a) eqn:Ha.
    + destruct a as [u c| | | |]; try discriminate Ha.
      pose proof (only_caller_enters _ _ _ _ _ _ Hex0 Hs) as ->.
      rewrite decide_True in Hmove by done.
      destruct Hmove as [_ Hin]. by destruct c.
    + assert (entered [a] = []) as Hnil by (by destruct a).
      assert (is_submission a = false) as Hsub by (by destruct a).
      rewrite Hnil, app_nil_r in Hlast. rewrite Hlast in Hm0.
      assert ((pc0 = Idle -> Idle = Idle) /\
              (in_wait pc0 = true ->
               in_wait Idle = true \/
               (Idle = Idle /\ a = Exec 0%nat /\ countJobs (this w) = 0)))
        as [_ Hw] by (destruct a; try discriminate Ha; tauto).
      destruct Hm0 as [-> | Hin].
      * eapply quiescent_step; [|exact Hsub|exact Hs].
        by apply (IH w0).
      * destruct (Hw Hin) as [Hbad | (_ & _ & Hz)]; [discriminate Hbad|].
        eapply undivided_zero_quiescent; [exact Hsize|exact Hnew| |exact Hz|].
        -- eapply undivided_run_reachable;
             [apply undivided_boot|exact Hund|exact Hex'].
        -- intros t pc Ht.
           pose proof (single_caller_others _ _ _ _ _ Hex' Ht) as ->.
           rewrite Hidle in Ht. by simplify_eq.
Qed.

(** ** Checking that a run divides no update *)

(** The boolean check implies the property. *)
Lemma undivided_from_ok l a : forall i,
  undivided_from i l a = true ->
  forall t th, l !! t = Some th -> mid_update th = true -> a = Exec (i + t)%nat.
Proof.
  induction l as [|x l IH]; intros i Hb t th Hth Hmid; [done|].
  simpl in Hb. apply andb_prop in Hb as [Hx Hl].
  destruct t as [|t]; simpl in Hth.
  - simplify_eq. rewrite Hmid in Hx. destruct a; try discriminate.
    apply Nat.eqb_eq in Hx. subst. f_equal. lia.
  - rewrite (IH _ Hl _ _ Hth Hmid). f_equal. lia.
Qed.

Lemma undivided_runb_ok tr : forall w,
  undivided_runb w tr = true -> undivided_run w tr.
Proof.
  induction tr as [|a tr IH]; intros w Hb; simpl in *; [done|].
  apply andb_prop in Hb as [Ha Hrest]. split.
  - intros t th Hth Hmid. apply (undivided_from_ok _ _ 0%nat Ha _ _ Hth Hmid).
  - destruct (step w a); [by apply IH | done].
Qed.

(** ** [wait] when nothing is left to do *)

(** With the counter at zero and the mutex free, a call of [wait] by an
    idle thread locks, finds its predicate true and returns. *)
Lemma idle_wait_returns w t :
  threads w !! t = Some (Caller Idle) -> mutex (this w) = None ->
  countJobs (this w) = 0 -> returns_at_once t w.
Proof.
  intros Hth Hfree Hz. unfold returns_at_once, call_alone.
  assert (t < length (threads w))%nat as Hlt by eauto using lookup_lt_Some.
  destruct w as [[cond m mx er cnt] ths clk rep]. simpl in *. subst m cnt.
  run_thread Hth.
  unfold goto, set_thread, upd_this, set_mutex; simpl.
  rewrite !list_insert_insert_eq, list_insert_id by done. reflexivity.
Qed.

(** Quiescence along a run without submissions. *)
Lemma quiescent_run tr : forall w w',
  quiescent w -> forallb (fun a => negb (is_submission a)) tr = true ->
  exec w tr = Some w' -> quiescent w'.
Proof.
  induction tr as [|a tr IH]; intros w w' Hq Hno Hex; simpl in *.
  - by simplify_eq.
  - apply andb_prop in Hno as [Ha Hno]. apply Bool.negb_true_iff in Ha.
    destruct (step w a) as [w1|] eqn:Hs; [|discriminate].
    eapply IH; [|exact Hno|exact Hex]. eapply quiescent_step; eassumption.
Qed.

(** ** The runs of [main] *)

(** The clock and the starting times are never negative. *)
Lemma clock_inv_step w a w' : clock_inv w -> step w a = Some w' -> clock_inv w'.
Proof.
  intros [Hc Hall] Hs. split.
  - step_inv Hs; simpl;
      repeat match goal with
             | H : (_ <? _) = true |- _ => apply Z.ltb_lt in H
             end; lia.
  - intros x kx Hx.
    step_inv Hs; simpl in *;
      repeat first
        [ apply list_lookup_insert_Some in Hx as [(? & ? & ?) | (? & Hx)]
        | apply lookup_snoc_Some in Hx as [(? & Hx) | (? & ?)] ];
      simplify_eq; simpl; eauto.
Qed.

Lemma clock_inv_reachable s callers w : reachable s callers w -> clock_inv w.
Proof.
  induction 1 as [|w a w' _ IH Hs].
  - split; [simpl; lia|]. intros t k Hth.
    apply lookup_replicate in Hth as [? _]. discriminate.
  - eapply clock_inv_step; eassumption.
Qed.

(** A prefix of the calls gives a prefix of the submissions. *)
Lemma submissions_prefix cs1 cs2 :
  cs1 `prefix_of` cs2 -> submissions cs1 `prefix_of` submissions cs2.
Proof. intros [cs ->]. rewrite submissions_app. by eexists. Qed.

(** [reports_in] of a cons. *)
Lemma reports_in_cons t u d l :
  reports_in t ((u, d) :: l) =
  if Nat.eqb u t then d :: reports_in t l else reports_in t l.
Proof. unfold reports_in. simpl. by destruct (Nat.eqb u t). Qed.

(** A record in which only threads 2 and 3 appear is, up to the order of
    its entries, what thread 2 reported followed by what thread 3
    reported. *)
Lemma reports_split (l : list (tid * string)) :
  (forall t, t <> 2%nat -> t <> 3%nat -> reports_in t l = []) ->
  l ≡ₚ ((fun d => (2%nat, d)) <$> reports_in 2%nat l) ++
       ((fun d => (3%nat, d)) <$> reports_in 3%nat l).
Proof.
  induction l as [|[u d] l IH]; intros Hother; [done|].
  assert (forall t, t <> 2%nat -> t <> 3%nat -> reports_in t l = []) as Hother'.
  { intros t H2 H3. specialize (Hother t H2 H3).
    rewrite reports_in_cons in Hother. by destruct (Nat.eqb u t). }
  specialize (IH Hother').
  destruct (decide (u = 2%nat)) as [->|H2]; [|destruct (decide (u = 3%nat)) as [->|H3]].
  - rewrite !reports_in_cons. simpl. by f_equiv.
  - rewrite !reports_in_cons. simpl. rewrite <- Permutation_middle. by f_equiv.
  - specialize (Hother u H2 H3). rewrite reports_in_cons, Nat.eqb_refl in Hother.
    discriminate.
Qed.

(** The threads of [main]: thread 0 and one thread per job submitted so
    far, in the order of lines 103-122. *)
Lemma main_table tr w :
  run_of_main tr w ->
  exists pc ks,
    threads w = Caller pc :: (Spawned <$> ks) /\
    (captured <$> ks) ++ pending pc = submissions (entered tr) /\
    (captured <$> ks) `prefix_of` submissions main_calls.
Proof.
  intros [Hex Hpre].
  destruct (single_caller_table _ _ _ Hex) as (pc & ks & Hth & Heq).
  exists pc, ks. split; [exact Hth|]. split; [exact Heq|].
  etrans; [|apply submissions_prefix; exact Hpre].
  rewrite <- Heq. by apply prefix_app_r.
Qed.

(** What each thread of [main] has told the callback. *)
Lemma main_reports_of tr w t :
  run_of_main tr w ->
  reports_of t w = [] \/
  (t = 2%nat /\ reports_of t w = ["Unknown"]) \/
  (t = 3%nat /\ reports_of t w = ["err"]).
Proof.
  intros Hrun. destruct (main_table _ _ Hrun) as (pc & ks & Hth & _ & Hpre).
  destruct Hrun as [Hex _].
  destruct (report_inv_reachable _ _ _ (exec_reachable _ _ _ _ Hex)) as [Hinv Hout].
  destruct (threads w !! t) as [th|] eqn:Ht.
  - destruct (Hinv _ _ Ht) as [_ Hrep]. rewrite Hrep. rewrite Hth in Ht.
    destruct t as [|i]; simpl in Ht; [simplify_eq; by left|].
    rewrite list_lookup_fmap in Ht. destruct (ks !! i) as [k|] eqn:Hk; [|discriminate].
    simpl in Ht. simplify_eq.
    assert ((captured <$> ks) !! i = Some (captured k)) as Hc
        by (by rewrite list_lookup_fmap, Hk).
    pose proof (prefix_lookup_Some _ _ _ _ Hc Hpre) as Hm.
    unfold captured in Hm. simpl.
    do 5 (destruct i as [|i]; [simpl in Hm; simplify_eq; rewrite <- ?H0;
                               destruct (job k) eqn:Hj; simplify_eq;
                               try (by left);
                               destruct (handled (wpc k)); auto |]).
    discriminate Hm.
  - left. apply Hout. by apply lookup_ge_None.
Qed.

(** Where [main] ends when no update of the counter is divided. *)
Lemma main_end_state tr w :
  run_of_main tr w -> undivided_run (boot two_slots 1) tr -> main_is_over tr w ->
  countJobs (this w) = 0 /\
  (exists ks,
     threads w = Caller Idle :: (Spawned <$> ks) /\
     captured <$> ks = submissions main_calls /\
     forall k, k ∈ ks -> wpc k = Finished) /\
  reported w ≡ₚ main_failures.
Proof.
  intros Hrun Hund [Hall Hidle].
  destruct (main_table _ _ Hrun) as (pc & ks & Hth & Heq & _).
  pose proof Hrun as [Hex _].
  assert (pc = Idle) as -> by (rewrite Hth in Hidle; simpl in Hidle; congruence).
  simpl in Heq. rewrite app_nil_r, Hall in Heq.
  assert (quiescent w) as [Hz Hq].
  { eapply (single_caller_barrier 2 callback two_slots tr w);
      [unfold size_t_max, size_t_bits; lia|reflexivity|exact Hex|exact Hund| |exact Hidle].
    by rewrite Hall. }
  assert (forall i k, ks !! i = Some k -> wpc k = Finished) as Hfin.
  { intros i k Hk. specialize (Hq (S i) (Spawned k)). rewrite Hth in Hq. simpl in Hq.
    rewrite list_lookup_fmap, Hk in Hq. specialize (Hq eq_refl).
    by destruct (wpc k). }
  pose proof (exec_reachable _ _ _ _ Hex) as Hr.
  destruct (report_inv_reachable _ _ _ Hr) as [Hinv _].
  destruct ks as [|k1 [|k2 [|k3 [|k4 [|k5 [|k6 ks]]]]]]; try discriminate Heq.
  simpl in Heq. unfold captured in Heq. simplify_eq.
  split; [exact Hz|]. split.
  - eexists [k1; k2; k3; k4; k5]. split; [exact Hth|]. split.
    + simpl. unfold captured. congruence.
    + intros k [i Hk]%list_elem_of_lookup. by eapply Hfin.
  - assert (forall t, t <> 2%nat -> t <> 3%nat -> reports_in t (reported w) = [])
      as Hother.
    { intros t Ht2 Ht3.
      destruct (main_reports_of tr w t Hrun) as [Hn|[[? _]|[? _]]]; done. }
    rewrite (reports_split _ Hother).
    destruct (Hinv 2%nat (Spawned k2)) as [_ Hr2]; [by rewrite Hth|].
    destruct (Hinv 3%nat (Spawned k3)) as [_ Hr3]; [by rewrite Hth|].
    unfold reports_of in Hr2, Hr3. rewrite Hr2, Hr3. simpl.
    rewrite (Hfin 1%nat k2 eq_refl), (Hfin 2%nat k3 eq_refl).
    match goal with H : job k2 = _ |- _ => rewrite H end.
    match goal with H : job k3 = _ |- _ => rewrite H end.
    reflexivity.
Qed.

(** ** Admission times in [main] *)

(** Moving a job thread does not change its admission time. *)
Lemma admitted_at_at_pc (ks : list Worker) (t : nat) k pc :
  ks !! t = Some k -> admitted_at <$> <[t := at_pc k pc]> ks = admitted_at <$> ks.
Proof.
  intros Hk. rewrite list_fmap_insert. apply list_insert_id.
  rewrite list_lookup_fmap, Hk. reflexivity.
Qed.

(** With a single caller, the admission times in the order of admission:
    a step leaves them alone or, when the caller finds the predicate of
    line 47 true, adds the current time. *)
Lemma single_caller_admission pc ks w a w' :
  threads w = Caller pc :: (Spawned <$> ks) -> step w a = Some w' ->
  exists pc' ks',
    threads w' = Caller pc' :: (Spawned <$> ks') /\
    ((admitted_at <$> ks') ++ granted pc' = (admitted_at <$> ks) ++ granted pc \/
     ((exists j n, pc = S47 j n) /\
      (admitted_at <$> ks') ++ granted pc' = (admitted_at <$> ks) ++ [clock w] /\
      countJobs (this w) < maxJobsAllowed (this w))).
Proof.
  intros Hth Hs.
  step_inv Hs; simpl; rewrite Hth in *;
    repeat match goal with
           | H : (_ <? _) = true |- _ => apply Z.ltb_lt in H
           end;
    repeat match goal with
           | H : (_ :: _) !! ?t = Some _ |- _ =>
               destruct t as [|?]; simpl in H;
               [ | rewrite list_lookup_fmap in H;
                   match type of H with
                   | context [?l !! ?i] => destruct (l !! i) eqn:?
                   end; simpl in H ];
               simplify_eq
           end; simpl.
  all: try (eexists _, ks; split; [reflexivity|]; simpl; by left).
  all: try (eexists _, ks; split; [reflexivity|]; simpl; right;
            split; [by eauto|]; split; [reflexivity|assumption]).
  1: { eexists S80, (ks ++ [_]). rewrite !fmap_app. simpl.
       split; [reflexivity | left; by rewrite app_nil_r]. }
  all: eexists _, (<[_ := at_pc _ _]> ks); rewrite list_fmap_insert;
    (split; [reflexivity|]); left; rewrite admitted_at_at_pc by eassumption;
    reflexivity.
Qed.

(** [Spawned] is injective on lists. *)
Lemma spawned_inj (ks ks' : list Worker) :
  Spawned <$> ks = Spawned <$> ks' -> ks = ks'.
Proof.
  revert ks'. induction ks as [|k ks IH]; intros [|k' ks'] H; simplify_eq/=; [done|].
  f_equal. by apply IH.
Qed.

(** A job thread is over or in flight. *)
Lemma in_flight_cases k :
  (wpc k = Finished /\ in_flight (Spawned k) = 0) \/ in_flight (Spawned k) = 1.
Proof. simpl. destruct (wpc k); auto. Qed.

(** A job thread that is over was admitted at least its delay ago. *)
Lemma finished_after_delay s callers w t k :
  reachable s callers w -> threads w !! t = Some (Spawned k) ->
  wpc k = Finished -> admitted_at k + delay k <= clock w.
Proof.
  intros Hr Hth Hf.
  pose proof (time_inv_reachable _ _ _ Hr _ _ Hth) as (Ha & _ & Hd). simpl in *.
  rewrite Hf in Hd. specialize (Hd ltac:(discriminate)). lia.
Qed.

(** A run of [main] less its last step is a run of [main]. *)
Lemma run_of_main_prefix tr a w0 w :
  exec (boot two_slots 1) tr = Some w0 -> run_of_main (tr ++ [a]) w ->
  run_of_main tr w0.
Proof.
  intros Hex0 [_ Hpre]. split; [exact Hex0|].
  etrans; [|exact Hpre]. rewrite entered_app. by apply prefix_app_r.
Qed.

(** The capacity along a run. *)
Lemma capacity_constant tr : forall w w',
  exec w tr = Some w' -> maxJobsAllowed (this w') = maxJobsAllowed (this w).
Proof.
  induction tr as [|a tr IH]; intros w w' Hex; simpl in Hex; [by simplify_eq|].
  destruct (step w a) as [w1|] eqn:Hs; [|discriminate].
  rewrite (IH _ _ Hex). by destruct (step_frame _ _ _ Hs) as (-> & _).
Qed.

(** The admission times of [main] respect [main_admission_floor]: a job
    is admitted with fewer than two jobs in flight, so all but one of the
    jobs before it are over, and each of those took its delay. *)
Lemma main_admissions tr : forall w,
  run_of_main tr w -> undivided_run (boot two_slots 1) tr ->
  forall pc ks, threads w = Caller pc :: (Spawned <$> ks) ->
    admissions_ok ((admitted_at <$> ks) ++ granted pc).
Proof.
  induction tr as [|a tr IH] using rev_ind; intros w Hrun Hund pc ks Hth.
  - destruct Hrun as [Hex _]. simpl in Hex. simplify_eq. simpl in Hth.
    simplify_eq. destruct ks; [|discriminate]. intros i x Hi. discriminate.
  - pose proof Hrun as [Hex _]. rewrite exec_app in Hex.
    destruct (exec (boot two_slots 1) tr) as [w0|] eqn:Hex0; [|discriminate].
    simpl in Hex. destruct (step w0 a) as [w1|] eqn:Hs; [|discriminate].
    assert (w1 = w) as -> by congruence. clear Hex.
    pose proof (run_of_main_prefix _ _ _ _ Hex0 Hrun) as Hrun0.
    destruct (undivided_run_app _ _ _ _ Hex0 Hund) as [Hund0 _].
    destruct (single_caller_table _ _ _ Hex0) as (pc0 & ks0 & Hth0 & Hcap).
    specialize (IH _ Hrun0 Hund0 _ _ Hth0).
    destruct (single_caller_admission _ _ _ _ _ Hth0 Hs)
      as (pc1 & ks1 & Hth1 & Hcase).
    rewrite Hth in Hth1. injection Hth1 as <- Hks. apply spawned_inj in Hks as <-.
    destruct Hcase as [-> | ((j & n & ->) & -> & Hlt)]; [exact IH|].
    simpl in IH, Hcap. rewrite app_nil_r in IH.
    intros i x Hi. apply lookup_app_Some in Hi as [Hi | [Hlen Hi]].
    { by apply IH. }
    apply list_lookup_singleton_Some in Hi as [Hi <-].
    rewrite length_fmap in Hlen, Hi.
    assert (i = length ks0) as -> by lia. clear Hlen Hi.
    assert (reachable two_slots 1 w0) as Hr0 by (eapply exec_reachable; exact Hex0).
    assert (reachable_undivided two_slots 1 w0) as Hru
        by (eapply undivided_run_reachable;
            [apply undivided_boot|exact Hund0|exact Hex0]).
    destruct (counter_inv_reachable 2 callback _ _ _
                ltac:(vm_compute; split; discriminate) eq_refl Hru)
      as [(_ & Hcnt & _) _].
    pose proof (capacity_constant _ _ _ Hex0) as Hmax. simpl in Hmax.
    rewrite Hmax, Hcnt, Hth0 in Hlt. simpl in Hlt.
    destruct (clock_inv_reachable _ _ _ Hr0) as [Hclk _].
    destruct Hrun0 as [_ Hpre]. apply submissions_prefix in Hpre.
    rewrite <- Hcap in Hpre. destruct Hpre as [rest Hpre]. simpl in Hpre.
    assert (forall t k, ks0 !! t = Some k ->
              threads w0 !! S t = Some (Spawned k)) as Hlook.
    { intros t k Hk. rewrite Hth0. simpl. by rewrite list_lookup_fmap, Hk. }
    assert (forall t k, ks0 !! t = Some k ->
              exists f, main_admission_floor !! t = Some f /\ f <= admitted_at k)
      as Hfloor.
    { intros t k Hk. apply IH. by rewrite list_lookup_fmap, Hk. }
    destruct ks0 as [|k1 [|k2 [|k3 [|k4 [|k5 ks0]]]]]; simpl in *;
      unfold captured in Hpre; simplify_eq.
    + exists 0. split; [reflexivity|lia].
    + exists 0. split; [reflexivity|lia].
    + exists 150. split; [reflexivity|].
      pose proof (finished_after_delay _ _ _ _ _ Hr0 (Hlook 0%nat k1 eq_refl)) as D1.
      pose proof (finished_after_delay _ _ _ _ _ Hr0 (Hlook 1%nat k2 eq_refl)) as D2.
      destruct (Hfloor 0%nat k1 eq_refl) as (f1 & [= <-] & B1).
      destruct (Hfloor 1%nat k2 eq_refl) as (f2 & [= <-] & B2).
      destruct (in_flight_cases k1) as [[F1 E1]|E1];
        destruct (in_flight_cases k2) as [[F2 E2]|E2];
        simpl in E1, E2; rewrite E1, E2 in Hlt;
        try (specialize (D1 F1)); try (specialize (D2 F2)); lia.
    + exists 1000. split; [reflexivity|].
      pose proof (finished_after_delay _ _ _ _ _ Hr0 (Hlook 0%nat k1 eq_refl)) as D1.
      pose proof (finished_after_delay _ _ _ _ _ Hr0 (Hlook 1%nat k2 eq_refl)) as D2.
      pose proof (finished_after_delay _ _ _ _ _ Hr0 (Hlook 2%nat k3 eq_refl)) as D3.
      destruct (Hfloor 0%nat k1 eq_refl) as (f1 & [= <-] & B1).
      destruct (Hfloor 1%nat k2 eq_refl) as (f2 & [= <-] & B2).
      destruct (Hfloor 2%nat k3 eq_refl) as (f3 & [= <-] & B3).
      destruct (in_flight_cases k1) as [[F1 E1]|E1];
        destruct (in_flight_cases k2) as [[F2 E2]|E2];
        destruct (in_flight_cases k3) as [[F3 E3]|E3];
        simpl in E1, E2, E3; rewrite E1, E2, E3 in Hlt;
        try (specialize (D1 F1)); try (specialize (D2 F2));
        try (specialize (D3 F3)); lia.
    + exists 1100. split; [reflexivity|].
      pose proof (finished_after_delay _ _ _ _ _ Hr0 (Hlook 0%nat k1 eq_refl)) as D1.
      pose proof (finished_after_delay _ _ _ _ _ Hr0 (Hlook 1%nat k2 eq_refl)) as D2.
      pose proof (finished_after_delay _ _ _ _ _ Hr0 (Hlook 2%nat k3 eq_refl)) as D3.
      pose proof (finished_after_delay _ _ _ _ _ Hr0 (Hlook 3%nat k4 eq_refl)) as D4.
      destruct (Hfloor 0%nat k1 eq_refl) as (f1 & [= <-] & B1).
      destruct (Hfloor 1%nat k2 eq_refl) as (f2 & [= <-] & B2).
      destruct (Hfloor 2%nat k3 eq_refl) as (f3 & [= <-] & B3).
      destruct (Hfloor 3%nat k4 eq_refl) as (f4 & [= <-] & B4).
      destruct (in_flight_cases k1) as [[F1 E1]|E1];
        destruct (in_flight_cases k2) as [[F2 E2]|E2];
        destruct (in_flight_cases k3) as [[F3 E3]|E3];
        destruct (in_flight_cases k4) as [[F4 E4]|E4];
        simpl in E1, E2, E3, E4; rewrite E1, E2, E3, E4 in Hlt;
        try (specialize (D1 F1)); try (specialize (D2 F2));
        try (specialize (D3 F3)); try (specialize (D4 F4)); lia.
    + exfalso. destruct ks0; simpl in *; discriminate.
Qed.

(** ** Two runs, for every capacity, operation and delay *)

(** Small values of the counter do not wrap. *)
Lemma size_t_wrap_one : size_t_wrap 1 = 1.
Proof. reflexivity. Qed.

Lemma size_t_wrap_zero : size_t_wrap 0 = 0.
Proof. reflexivity. Qed.

(** A run, one step at a time. *)
Lemma exec_step w a w1 tr r :
  step w a = Some w1 -> exec w1 tr = r -> exec w (a :: tr) = r.
Proof. intros H1 H2. simpl. by rewrite H1. Qed.

(** The run ends in [lost_wakeup_end]. *)
Lemma lost_wakeup_run_end size j n :
  0 < size ->
  exec (boot (mkScheduler [] None size callback 0) 1) (lost_wakeup_run j n) =
  Some (lost_wakeup_end size j n (Z.max 1 n)).
Proof.
  intros Hsize.
  assert ((0 <? size) = true) as H1 by (apply Z.ltb_lt; lia).
  assert ((0 <? Z.max 1 n) = true) as H2 by (apply Z.ltb_lt; lia).
  assert ((n <=? Z.max 1 n) = true) as H3 by (apply Z.leb_le; lia).
  unfold lost_wakeup_run, call_alone, boot, lost_wakeup_end.
  destruct j as [|[what|]]; simpl app;
    repeat (eapply exec_step;
            [ unfold step, step_caller, step_worker, unblock, acquire, is_waiting;
              repeat first [ progress simpl
                           | rewrite Z.add_0_l | rewrite Z.sub_diag
                           | rewrite H1 | rewrite H2 | rewrite H3
                           | rewrite size_t_wrap_one | rewrite size_t_wrap_zero ];
              cbv [wgoto goto block upd_this set_thread at_pc advance report spawn
                   set_mutex set_countJobs set_condition this threads clock
                   reported condition mutex maxJobsAllowed error countJobs
                   job delay admitted_at started wpc drop_waiter];
              simpl; reflexivity | ]);
    reflexivity.
Qed.

(** From there no thread has a statement to run: thread 0 is blocked,
    thread 1 is over, and only the clock moves. *)
Lemma lost_wakeup_end_step size j n c a w' :
  step (lost_wakeup_end size j n c) a = Some w' -> is_spurious a = false ->
  exists d, w' = lost_wakeup_end size j n (c + d).
Proof.
  intros Hs Hsp. destruct a as [t cl|t|t u|u|d]; [| | |discriminate Hsp|].
  - destruct t as [|[|t]]; discriminate Hs.
  - destruct t as [|[|t]]; discriminate Hs.
  - destruct t as [|[|t]]; discriminate Hs.
  - simpl in Hs. destruct (0 <? d); [|discriminate]. simplify_eq. by exists d.
Qed.

Lemma lost_wakeup_end_run size j n tr : forall c w',
  exec (lost_wakeup_end size j n c) tr = Some w' ->
  forallb (fun a => negb (is_spurious a)) tr = true ->
  exists c', w' = lost_wakeup_end size j n c'.
Proof.
  induction tr as [|a tr IH]; intros c w' Hex Hno; simpl in Hex, Hno.
  - simplify_eq. by exists c.
  - apply andb_prop in Hno as [Ha Hno]. apply Bool.negb_true_iff in Ha.
    destruct (step _ a) as [w1|] eqn:Hs; [|discriminate].
    destruct (lost_wakeup_end_step _ _ _ _ _ _ Hs Ha) as [d ->].
    by eapply IH.
Qed.

Lemma size_t_wrap_two : size_t_wrap 2 = 2.
Proof. reflexivity. Qed.

(** The run ends in [early_return_end]. *)
Lemma early_return_run_end size j1 n1 j2 n2 :
  1 < size ->
  exec (boot (mkScheduler [] None size callback 0) 1) (early_return_run j1 n1 j2 n2) =
  Some (early_return_end size j1 n1 j2 n2).
Proof.
  intros Hsize.
  assert ((0 <? size) = true) as H1 by (apply Z.ltb_lt; lia).
  assert ((0 <? Z.max 1 n1) = true) as H2 by (apply Z.ltb_lt; lia).
  assert ((n1 <=? Z.max 1 n1) = true) as H3 by (apply Z.leb_le; lia).
  assert ((1 <? size) = true) as H4 by (apply Z.ltb_lt; lia).
  unfold early_return_run, call_alone, boot, early_return_end.
  destruct j1 as [|[what|]]; simpl app;
    repeat (eapply exec_step;
            [ unfold step, step_caller, step_worker, unblock, acquire, is_waiting;
              repeat first [ progress simpl
                           | rewrite Z.add_0_l | rewrite Z.sub_diag
                           | rewrite H1 | rewrite H2 | rewrite H3 | rewrite H4
                           | rewrite size_t_wrap_one | rewrite size_t_wrap_zero
                           | rewrite size_t_wrap_two ];
              cbv [wgoto goto block upd_this set_thread at_pc advance report spawn
                   set_mutex set_countJobs set_condition this threads clock
                   reported condition mutex maxJobsAllowed error countJobs
                   job delay admitted_at started wpc drop_waiter];
              simpl; reflexivity | ]);
    reflexivity.
Qed.

(** ** Job threads make progress *)

(** Moving a job thread twice. *)
Lemma at_pc_at_pc k pc pc' : at_pc (at_pc k pc) pc' = at_pc k pc'.
Proof. reflexivity. Qed.

(** A job thread that is not over has a next statement that it can run,
    after its delay at line 62, and with any waiter as the one woken at
    line 77. *)
Lemma job_thread_advances s callers w t k :
  condition s = [] -> reachable s callers w ->
  threads w !! t = Some (Spawned k) -> wpc k <> Finished ->
  exists tr w' pc,
    exec w tr = Some w' /\ forallb (own_action t) tr = true /\
    threads w' !! t = Some (Spawned (at_pc k pc)) /\
    (remaining pc < remaining (wpc k))%nat.
Proof.
  intros Hc Hr Hth Hpc.
  assert (t < length (threads w))%nat as Hlt by eauto using lookup_lt_Some.
  assert (forall pc w0, threads w0 = threads w ->
            threads (wgoto t k pc w0) !! t = Some (Spawned (at_pc k pc))) as Hgo.
  { intros pc w0 Hw0. simpl. rewrite Hw0.
    by rewrite list_lookup_insert_eq. }
  destruct (wpc k) as [| |what| | | |r|] eqn:Hk; [| | | | | | |done].
  - (* line 62: let the delay pass *)
    set (d := Z.max 1 (started k + delay k - clock w)).
    exists [Tick d; Exec t], (wgoto t k L66 (advance d w)), L66.
    split; [|split; [|split]].
    + simpl. assert ((0 <? d) = true) as -> by (apply Z.ltb_lt; lia).
      simpl. rewrite Hth. unfold step_worker. rewrite Hk.
      assert ((started k + delay k <=? clock (advance d w)) = true) as ->
          by (apply Z.leb_le; simpl; lia).
      reflexivity.
    + simpl. by rewrite Nat.eqb_refl.
    + by apply Hgo.
    + simpl. lia.
  - (* line 66 *)
    destruct (job k) as [|[what|]] eqn:Hj.
    + exists [Exec t], (wgoto t k L77 w), L77.
      split; [|split; [|split]].
      * simpl. rewrite Hth. unfold step_worker. by rewrite Hk, Hj.
      * simpl. by rewrite Nat.eqb_refl.
      * by apply Hgo.
      * simpl. lia.
    + exists [Exec t], (wgoto t k (L70 what) w), (L70 what).
      split; [|split; [|split]].
      * simpl. rewrite Hth. unfold step_worker. by rewrite Hk, Hj.
      * simpl. by rewrite Nat.eqb_refl.
      * by apply Hgo.
      * simpl. lia.
    + exists [Exec t], (wgoto t k L74 w), L74.
      split; [|split; [|split]].
      * simpl. rewrite Hth. unfold step_worker. by rewrite Hk, Hj.
      * simpl. by rewrite Nat.eqb_refl.
      * by apply Hgo.
      * simpl. lia.
  - exists [Exec t], (wgoto t k L77 (report t what w)), L77.
    split; [|split; [|split]].
    + simpl. rewrite Hth. unfold step_worker. by rewrite Hk.
    + simpl. by rewrite Nat.eqb_refl.
    + by apply Hgo.
    + simpl. lia.
  - exists [Exec t], (wgoto t k L77 (report t "Unknown" w)), L77.
    split; [|split; [|split]].
    + simpl. rewrite Hth. unfold step_worker. by rewrite Hk.
    + simpl. by rewrite Nat.eqb_refl.
    + by apply Hgo.
    + simpl. lia.
  - (* line 77: nobody waits, or one waiter is picked *)
    destruct (condition (this w)) as [|u c] eqn:Hcond.
    + exists [Exec t], (wgoto t k L78_load w), L78_load.
      split; [|split; [|split]].
      * simpl. rewrite Hth. unfold step_worker. by rewrite Hk, Hcond.
      * simpl. by rewrite Nat.eqb_refl.
      * by apply Hgo.
      * simpl. lia.
    + destruct (condition_inv_reachable _ _ _ Hc Hr) as (_ & Hin & Hall).
      assert (u ∈ condition (this w)) as Hu by (rewrite Hcond; left).
      destruct (lookup_lt_is_Some_2 _ _ (Hin _ Hu)) as [th Hthu].
      pose proof (proj1 (Hall _ _ Hthu) Hu) as Hb.
      assert (u <> t) as Hne by (intros Heq; subst u; unfold tid in *; rewrite Hth in Hthu; by simplify_eq).
      assert (exists w1, unblock u w = Some w1 /\
                         length (threads w1) = length (threads w)) as (w1 & Hw1 & Hlen).
      { unfold unblock. rewrite (proj2 (is_waiting_elem _ _) Hu).
        unfold tid in *. rewrite Hthu.
        destruct th as [[]|]; try discriminate Hb;
          eexists; (split; [reflexivity|]); simpl; by rewrite length_insert. }
      exists [Notify t u], (wgoto t k L78_load w1), L78_load.
      split; [|split; [|split]].
      * simpl. by rewrite Hth, Hk, Hw1.
      * simpl. by rewrite Nat.eqb_refl.
      * simpl. rewrite list_lookup_insert_eq by lia. reflexivity.
      * simpl. lia.
  - exists [Exec t], (wgoto t k (L78_store (countJobs (this w))) w),
      (L78_store (countJobs (this w))).
    split; [|split; [|split]].
    + simpl. rewrite Hth. unfold step_worker. by rewrite Hk.
    + simpl. by rewrite Nat.eqb_refl.
    + by apply Hgo.
    + simpl. lia.
  - exists [Exec t],
      (wgoto t k Finished (upd_this (set_countJobs (size_t_wrap (r - 1))) w)),
      Finished.
    split; [|split; [|split]].
    + simpl. rewrite Hth. unfold step_worker. by rewrite Hk.
    + simpl. by rewrite Nat.eqb_refl.
    + by apply Hgo.
    + simpl. lia.
Qed.

(** Hence it runs to its end in as many statements as [remaining] says. *)
Lemma job_thread_finishes_within s callers t k m : forall w pc,
  condition s = [] -> reachable s callers w ->
  threads w !! t = Some (Spawned (at_pc k pc)) -> (remaining pc <= m)%nat ->
  exists tr w',
    exec w tr = Some w' /\ forallb (own_action t) tr = true /\
    threads w' !! t = Some (Spawned (at_pc k Finished)).
Proof.
  induction m as [|m IH]; intros w pc Hc Hr Hth Hm.
  - exists [], w. split; [done|]. split; [done|].
    destruct pc; simpl in Hm; try lia. exact Hth.
  - assert (pc = Finished \/ pc <> Finished) as [->|Hne]
        by (destruct pc; auto; right; discriminate).
    { exists [], w. by repeat split. }
    destruct (job_thread_advances _ _ _ _ _ Hc Hr Hth Hne)
      as (tr1 & w1 & pc1 & Hex1 & Hown1 & Hth1 & Hlt).
    simpl in Hlt. rewrite at_pc_at_pc in Hth1.
    destruct (IH w1 pc1 Hc (exec_reachable_from _ _ _ _ _ Hr Hex1) Hth1 ltac:(lia))
      as (tr2 & w2 & Hex2 & Hown2 & Hth2).
    exists (tr1 ++ tr2), w2. split; [|split; [|exact Hth2]].
    + rewrite exec_app, Hex1. exact Hex2.
    + rewrite forallb_app, Hown1, Hown2. reflexivity.
Qed.

(** ** A scheduler with one slot *)




(** * Further properties of the code *)

(** ** The mutex and the wait set *)

(** X1: the mutex is released on every way out of [schedule] and [wait].
    In every state of every program, the owner of the mutex is a calling
    thread that stands between a lock (line 44 or 86, or the re-lock
    inside [condition.wait]) and the matching unlock; and when no caller
    stands there the mutex is free. *)
Theorem mutex_released_outside_calls size err s callers w :
  Scheduler_new size err = inr s -> reachable s callers w ->
  (forall t, mutex (this w) = Some t ->
     exists pc, threads w !! t = Some (Caller pc) /\ holds pc = true) /\
  ((forall t pc, threads w !! t = Some (Caller pc) -> holds pc = false) ->
   mutex (this w) = None).
Proof.
  intros Hnew Hr.
  pose proof (mutex_inv_reachable _ _ _ _ _ Hnew Hr) as Hinv.
  assert (mutex s = None) as Hm by (destruct err; by simplify_eq/=).
  pose proof (owner_known_reachable _ _ _ Hm Hr) as Hown.
  assert (forall t, mutex (this w) = Some t ->
            exists pc, threads w !! t = Some (Caller pc) /\ holds pc = true) as Hin.
  { intros t Ht. destruct (lookup_lt_is_Some_2 _ _ (Hown _ Ht)) as [th Hth].
    pose proof (Hinv _ _ Hth) as Ho. destruct th as [pc|k]; simpl in Ho.
    - exists pc. split; [done|]. by apply Ho.
    - done. }
  split; [exact Hin|].
  intros Hnone. destruct (mutex (this w)) as [t|] eqn:Ht; [|done].
  destruct (Hin t eq_refl) as (pc & Hth & Hh). rewrite (Hnone _ _ Hth) in Hh.
  discriminate.
Qed.

Lemma mutex_released_outside_calls_witness :
  exists w,
    reachable two_slots 1 w /\ mutex (this w) = Some 0%nat /\
    exists pc, threads w !! 0%nat = Some (Caller pc) /\ holds pc = true.
Proof.
  pose (tr := [Enter 0%nat (schedule returns 5); Exec 0%nat]).
  destruct (exec (boot two_slots 1) tr) as [w|] eqn:Hw;
    [|vm_compute in Hw; discriminate].
  assert (reachable two_slots 1 w) as Hr by (eapply exec_reachable; exact Hw).
  vm_compute in Hw. injection Hw as <-.
  eexists. split; [exact Hr|]. split; [reflexivity|].
  exact (proj1 (mutex_released_outside_calls 2 callback two_slots 1 _ eq_refl Hr)
           0%nat eq_refl).
Defined.

(** X2: the wait set of the condition variable holds exactly the callers
    that sit inside [condition.wait] at line 47 or 89, each of them once;
    none of them owns the mutex. *)
Theorem wait_set_is_the_blocked_callers size err s callers w :
  Scheduler_new size err = inr s -> reachable s callers w ->
  NoDup (condition (this w)) /\
  (forall t, t ∈ condition (this w) <->
     exists pc, threads w !! t = Some (Caller pc) /\ blocked pc = true) /\
  (forall t, t ∈ condition (this w) -> mutex (this w) <> Some t).
Proof.
  intros Hnew Hr.
  assert (condition s = []) as Hc by (destruct err; by simplify_eq/=).
  destruct (condition_inv_reachable _ _ _ Hc Hr) as (Hnd & Hlt & Hall).
  pose proof (mutex_inv_reachable _ _ _ _ _ Hnew Hr) as Hinv.
  assert (forall t, t ∈ condition (this w) ->
            exists pc, threads w !! t = Some (Caller pc) /\ blocked pc = true) as Hin.
  { intros t Ht. destruct (lookup_lt_is_Some_2 _ _ (Hlt _ Ht)) as [th Hth].
    apply (Hall _ _ Hth) in Ht. destruct th as [pc|k]; [|discriminate Ht].
    by exists pc. }
  split; [exact Hnd|]. split.
  - intros t. split; [apply Hin|].
    intros (pc & Hth & Hb). by apply (Hall _ _ Hth).
  - intros t Ht Hm. destruct (Hin _ Ht) as (pc & Hth & Hb).
    apply (Hinv _ _ Hth) in Hm. by destruct pc.
Qed.

Lemma wait_set_is_the_blocked_callers_witness :
  exists w,
    reachable one_slot 1 w /\ condition (this w) = [0%nat] /\
    exists pc, threads w !! 0%nat = Some (Caller pc) /\ blocked pc = true.
Proof.
  pose (tr := call_alone 0%nat (schedule returns 0) 6 ++ call_alone 0%nat wait 2).
  destruct (exec (boot one_slot 1) tr) as [w|] eqn:Hw;
    [|vm_compute in Hw; discriminate].
  assert (reachable one_slot 1 w) as Hr by (eapply exec_reachable; exact Hw).
  vm_compute in Hw. injection Hw as <-.
  eexists. split; [exact Hr|]. split; [reflexivity|].
  destruct (wait_set_is_the_blocked_callers 1 callback one_slot 1 _ eq_refl Hr)
    as (_ & Hiff & _).
  apply Hiff. constructor.
Defined.

(** ** What a run leaves alone *)

(** X3: no statement of [schedule], [wait] or a job thread writes
    [maxJobsAllowed] or [error]: whatever a program does, the capacity
    and the callback stay those the constructor stored.  Along a run the
    clock does not go back, threads are only added, and what the callback
    has been told is only added to. *)
Theorem configuration_never_changes tr : forall w w',
  exec w tr = Some w' ->
  maxJobsAllowed (this w') = maxJobsAllowed (this w) /\
  error (this w') = error (this w) /\
  clock w <= clock w' /\
  (length (threads w) <= length (threads w'))%nat /\
  reported w `prefix_of` reported w'.
Proof.
  induction tr as [|a tr IH]; intros w w' Hex; simpl in Hex.
  - simplify_eq. repeat split; try done; lia.
  - destruct (step w a) as [w1|] eqn:Hs; [|discriminate].
    destruct (step_frame _ _ _ Hs) as (H1 & H2 & H3 & H4 & extra & H5 & _).
    destruct (IH _ _ Hex) as (I1 & I2 & I3 & I4 & I5).
    repeat split; try congruence; try lia.
    etrans; [|exact I5]. rewrite H5. by apply prefix_app_r.
Qed.

Lemma configuration_never_changes_witness :
  exists w',
    exec (boot two_slots 1) lost_update_run = Some w' /\
    maxJobsAllowed (this w') = 2 /\ error (this w') = callback.
Proof.
  destruct (exec (boot two_slots 1) lost_update_run) as [w|] eqn:Hw;
    [|vm_compute in Hw; discriminate].
  exists w. split; [reflexivity|].
  destruct (configuration_never_changes _ _ _ Hw) as (H1 & H2 & _).
  by split.
Defined.

(** ** Runs that do not divide an update of the counter *)



(** X5: with one calling thread and no divided update, [wait] is a
    barrier.  When the last call entered is [wait] and it has returned,
    the counter is zero, there is one job thread for each call of
    [schedule] made, in the order of the calls and with the operation and
    delay of its call, every one of them has run to its end, and the
    callback has been told once by each thread whose operation threw and
    never by the others. *)
Theorem wait_is_a_barrier_when_undivided size err s tr w :
  0 <= size <= size_t_max -> Scheduler_new size err = inr s ->
  exec (boot s 1) tr = Some w -> undivided_run (boot s 1) tr ->
  last (entered tr) = Some wait -> threads w !! 0%nat = Some (Caller Idle) ->
  countJobs (this w) = 0 /\
  exists ks,
    threads w = Caller Idle :: (Spawned <$> ks) /\
    captured <$> ks = submissions (entered tr) /\
    forall t k, ks !! t = Some k ->
      wpc k = Finished /\
      reports_of (S t) w = match job k with
                           | returns => []
                           | throws e => [description e]
                           end.
Proof.
  intros Hsize Hnew Hex Hund Hlast Hidle.
  destruct (single_caller_barrier _ _ _ _ _ Hsize Hnew Hex Hund Hlast Hidle)
    as [Hz Hq].
  split; [exact Hz|].
  destruct (single_caller_table _ _ _ Hex) as (pc & ks & Hth & Heq).
  assert (pc = Idle) as -> by (rewrite Hth in Hidle; simpl in Hidle; congruence).
  simpl in Heq. rewrite app_nil_r in Heq.
  exists ks. split; [exact Hth|]. split; [exact Heq|].
  intros t k Hk.
  assert (threads w !! S t = Some (Spawned k)) as Ht
      by (rewrite Hth; simpl; by rewrite list_lookup_fmap, Hk).
  pose proof (Hq _ _ Ht) as Hs. simpl in Hs.
  assert (wpc k = Finished) as Hf by (by destruct (wpc k)).
  split; [exact Hf|].
  destruct (report_inv_reachable _ _ _ (exec_reachable _ _ _ _ Hex)) as [Hinv _].
  destruct (Hinv _ _ Ht) as [_ Hrep]. rewrite Hrep. simpl. by rewrite Hf.
Qed.

Lemma wait_is_a_barrier_when_undivided_witness :
  exists w,
    exec (boot one_slot 1)
      (call_alone 0%nat (schedule (throws other_value) 0) 6 ++
       call_alone 0%nat wait 2 ++
       [Exec 1%nat; Exec 1%nat; Exec 1%nat; Notify 1%nat 0%nat;
        Exec 1%nat; Exec 1%nat; Exec 0%nat; Exec 0%nat]) = Some w /\
    countJobs (this w) = 0 /\ reports_of 1%nat w = ["Unknown"].
Proof.
  pose (tr := call_alone 0%nat (schedule (throws other_value) 0) 6 ++
              call_alone 0%nat wait 2 ++
              [Exec 1%nat; Exec 1%nat; Exec 1%nat; Notify 1%nat 0%nat;
               Exec 1%nat; Exec 1%nat; Exec 0%nat; Exec 0%nat]).
  change (exists w, exec (boot one_slot 1) tr = Some w /\
                    countJobs (this w) = 0 /\ reports_of 1%nat w = ["Unknown"]).
  destruct (exec (boot one_slot 1) tr) as [w|] eqn:Hw;
    [|vm_compute in Hw; discriminate].
  pose proof Hw as Hex. vm_compute in Hw. injection Hw as <-.
  destruct (wait_is_a_barrier_when_undivided 1 callback one_slot tr _
              ltac:(vm_compute; split; discriminate) eq_refl Hex
              ltac:(apply undivided_runb_ok; vm_compute; reflexivity)
              eq_refl eq_refl)
    as (Hz & ks & Hth & _ & Hall).
  eexists. split; [reflexivity|]. split; [exact Hz|]. reflexivity.
Defined.

(** ** [wait] once nothing is left to do *)

(** X6: once the counter is zero, every job thread has run to its end
    and no caller is inside [schedule], this stays so in every run
    without a new call of [schedule], whoever moves and however long it
    takes; and at its end every call of [wait] made by an idle thread
    while the mutex is free returns without blocking. *)
Theorem quiescence_lasts_until_the_next_submission tr w w' :
  quiescent w -> forallb (fun a => negb (is_submission a)) tr = true ->
  exec w tr = Some w' ->
  quiescent w' /\
  forall t, threads w' !! t = Some (Caller Idle) -> mutex (this w') = None ->
            returns_at_once t w'.
Proof.
  intros Hq Hno Hex.
  pose proof (quiescent_run _ _ _ Hq Hno Hex) as Hq'.
  split; [exact Hq'|]. intros t Hth Hfree.
  apply idle_wait_returns; [exact Hth|exact Hfree|apply Hq'].
Qed.

Lemma quiescence_lasts_until_the_next_submission_witness :
  exists w w',
    exec (boot two_slots 2)
      (call_alone 0%nat (schedule (throws other_value) 0) 6 ++
       replicate 6 (Exec 2%nat)) = Some w /\
    reported w = [(2%nat, "Unknown")] /\ quiescent w /\
    exec w [Enter 0%nat wait; Tick 5; Exec 0%nat; Exec 0%nat] = Some w' /\
    quiescent w' /\ returns_at_once 1%nat w'.
Proof.
  destruct (exec (boot two_slots 2)
              (call_alone 0%nat (schedule (throws other_value) 0) 6 ++
               replicate 6 (Exec 2%nat))) as [w|] eqn:Hw0;
    [|vm_compute in Hw0; discriminate].
  destruct (exec w [Enter 0%nat wait; Tick 5; Exec 0%nat; Exec 0%nat])
    as [w'|] eqn:Hw;
    [|vm_compute in Hw0; injection Hw0 as <-; vm_compute in Hw; discriminate].
  exists w, w'. split; [reflexivity|].
  assert (reported w = [(2%nat, "Unknown")] /\ quiescent w) as [Hrep Hq].
  { vm_compute in Hw0. injection Hw0 as <-. split; [reflexivity|].
    split; [reflexivity|].
    intros t th Hth. destruct t as [|[|[|t]]]; simplify_eq/=; reflexivity. }
  split; [exact Hrep|]. split; [exact Hq|]. split; [exact Hw|].
  destruct (quiescence_lasts_until_the_next_submission
              [Enter 0%nat wait; Tick 5; Exec 0%nat; Exec 0%nat] _ _ Hq eq_refl Hw)
    as [Hq' Hret].
  split; [exact Hq'|].
  vm_compute in Hw0. injection Hw0 as <-.
  apply Hret.
  - vm_compute in Hw. injection Hw as <-. reflexivity.
  - vm_compute in Hw. injection Hw as <-. reflexivity.
Defined.

(** ** The job threads *)

(** X7: [schedule] does not check its delay, and a job thread given a
    delay of zero or less does not sleep at line 62: its next statement
    is the call of the operation, whatever the clock shows. *)
Theorem nonpositive_delay_needs_no_sleep s callers w t k :
  reachable s callers w -> threads w !! t = Some (Spawned k) ->
  wpc k = L62 -> delay k <= 0 ->
  step w (Exec t) = Some (wgoto t k L66 w).
Proof.
  intros Hr Hth Hpc Hd.
  pose proof (time_inv_reachable _ _ _ Hr _ _ Hth) as (_ & Hs & _). simpl in Hs.
  unfold step. rewrite Hth. unfold step_worker. rewrite Hpc.
  assert ((started k + delay k <=? clock w) = true) as ->
      by (apply Z.leb_le; lia).
  reflexivity.
Qed.

Lemma nonpositive_delay_needs_no_sleep_witness :
  exists w w',
    reachable two_slots 1 w /\
    threads w !! 1%nat =
      Some (Spawned {| job := returns; delay := -20; admitted_at := 0;
                       started := 0; wpc := L62 |}) /\
    step w (Exec 1%nat) = Some w' /\
    threads w' !! 1%nat =
      Some (Spawned {| job := returns; delay := -20; admitted_at := 0;
                       started := 0; wpc := L66 |}).
Proof.
  pose (tr := call_alone 0%nat (schedule returns (-20)) 6).
  destruct (exec (boot two_slots 1) tr) as [w|] eqn:Hw;
    [|vm_compute in Hw; discriminate].
  assert (reachable two_slots 1 w) as Hr by (eapply exec_reachable; exact Hw).
  vm_compute in Hw. injection Hw as <-.
  eexists _, _. split; [exact Hr|]. split; [reflexivity|]. split.
  - exact (nonpositive_delay_needs_no_sleep _ _ _ 1%nat _ Hr eq_refl eq_refl
             ltac:(simpl; lia)).
  - reflexivity.
Defined.



(** X9: a job thread never waits for the scheduler.  From every state of
    every program, each job thread can run to its end by its own
    statements and the passage of time alone (it takes no lock, and
    [notify_one] does not block); by then the callback has been told
    once if the operation threw and not at all if it returned. *)
Theorem job_thread_can_always_finish size err s callers w t k :
  Scheduler_new size err = inr s -> reachable s callers w ->
  threads w !! t = Some (Spawned k) ->
  exists tr w',
    exec w tr = Some w' /\ forallb (own_action t) tr = true /\
    threads w' !! t = Some (Spawned (at_pc k Finished)) /\
    reports_of t w' = match job k with
                      | returns => []
                      | throws e => [description e]
                      end.
Proof.
  intros Hnew Hr Hth.
  assert (condition s = []) as Hc by (destruct err; by simplify_eq/=).
  destruct (job_thread_finishes_within s callers t k 6 w (wpc k) Hc Hr)
    as (tr & w' & Hex & Hown & Hth').
  - by destruct k.
  - destruct (wpc k); simpl; lia.
  - exists tr, w'. split; [exact Hex|]. split; [exact Hown|].
    split; [exact Hth'|].
    destruct (report_inv_reachable _ _ _ (exec_reachable_from _ _ _ _ _ Hr Hex))
      as [Hinv _].
    destruct (Hinv _ _ Hth') as [_ Hrep]. exact Hrep.
Qed.

Lemma job_thread_can_always_finish_witness :
  exists w tr w',
    reachable one_slot 1 w /\
    threads w !! 0%nat = Some (Caller W89_blocked) /\
    threads w !! 1%nat =
      Some (Spawned {| job := throws other_value; delay := 40; admitted_at := 0;
                       started := 0; wpc := L62 |}) /\
    exec w tr = Some w' /\ forallb (own_action 1%nat) tr = true /\
    threads w' !! 1%nat =
      Some (Spawned {| job := throws other_value; delay := 40; admitted_at := 0;
                       started := 0; wpc := Finished |}) /\
    reports_of 1%nat w' = ["Unknown"].
Proof.
  pose (tr := call_alone 0%nat (schedule (throws other_value) 40) 6 ++
              call_alone 0%nat wait 2).
  destruct (exec (boot one_slot 1) tr) as [w|] eqn:Hw;
    [|vm_compute in Hw; discriminate].
  assert (reachable one_slot 1 w) as Hr by (eapply exec_reachable; exact Hw).
  vm_compute in Hw. injection Hw as <-.
  destruct (job_thread_can_always_finish 1 callback one_slot 1 _ 1%nat _
              eq_refl Hr eq_refl) as (tr' & w' & Hex & Hown & Hth & Hrep).
  eexists _, tr', w'. split; [exact Hr|]. split; [reflexivity|].
  split; [reflexivity|]. split; [exact Hex|]. split; [exact Hown|].
  split; [exact Hth|exact Hrep].
Defined.

(** ** What the order of lines 77 and 78 allows *)

(** X10: [wait] can block for ever although every job is over.  For
    every capacity above zero, every operation and every delay: a caller
    submits one job and calls [wait]; the job thread notifies at line 77;
    the caller wakes, still reads a counter of one and blocks again;
    only then does line 78 bring the counter to zero.  From then on,
    however much time passes, the caller stays blocked in [wait] with a
    counter of zero, unless the wait of line 89 wakes up spuriously. *)
Theorem wakeup_can_be_lost size err s j n :
  0 < size -> Scheduler_new size err = inr s ->
  exists w,
    exec (boot s 1) (lost_wakeup_run j n) = Some w /\
    countJobs (this w) = 0 /\
    threads w =
      [Caller W89_blocked;
       Spawned {| job := j; delay := n; admitted_at := 0; started := 0;
                  wpc := Finished |}] /\
    forall tr w',
      exec w tr = Some w' ->
      forallb (fun a => negb (is_spurious a)) tr = true ->
      threads w' = threads w /\ countJobs (this w') = 0.
Proof.
  intros Hsize Hnew. destruct err; simplify_eq/=.
  exists (lost_wakeup_end size j n (Z.max 1 n)).
  split; [by apply lost_wakeup_run_end|]. split; [reflexivity|].
  split; [reflexivity|].
  intros tr w' Hex Hno.
  destruct (lost_wakeup_end_run _ _ _ _ _ _ Hex Hno) as [c' ->].
  split; reflexivity.
Qed.

Lemma wakeup_can_be_lost_witness :
  0 < 2 /\ Scheduler_new 2 callback = inr two_slots /\
  exists w,
    exec (boot two_slots 1) (lost_wakeup_run returns 1000) = Some w /\
    countJobs (this w) = 0 /\
    threads w !! 0%nat = Some (Caller W89_blocked).
Proof.
  split; [lia|]. split; [reflexivity|].
  destruct (wakeup_can_be_lost 2 callback two_slots returns 1000)
    as (w & Hrun & Hz & Hth & _); [lia|reflexivity|].
  exists w. split; [exact Hrun|]. split; [exact Hz|]. by rewrite Hth.
Defined.

(** X11: [wait] can return before a submitted job has run.  For every
    capacity of two or more, all operations and all delays: the thread
    of a first job loads the counter for line 78, the caller admits a
    second job, and the first thread stores what it loaded less one,
    which is zero.  The call of [wait] that follows returns at once,
    while the thread of the second job has not even begun its sleep. *)
Theorem wait_can_return_before_a_job_runs size err s j1 n1 j2 n2 :
  1 < size -> Scheduler_new size err = inr s ->
  exists w,
    exec (boot s 1) (early_return_run j1 n1 j2 n2) = Some w /\
    threads w =
      [Caller Idle;
       Spawned {| job := j1; delay := n1; admitted_at := 0; started := 0;
                  wpc := Finished |};
       Spawned {| job := j2; delay := n2; admitted_at := Z.max 1 n1;
                  started := Z.max 1 n1; wpc := L62 |}] /\
    countJobs (this w) = 0.
Proof.
  intros Hsize Hnew. destruct err; simplify_eq/=.
  exists (early_return_end size j1 n1 j2 n2).
  split; [by apply early_return_run_end|]. split; reflexivity.
Qed.

Lemma wait_can_return_before_a_job_runs_witness :
  1 < 2 /\ Scheduler_new 2 callback = inr two_slots /\
  exists w,
    exec (boot two_slots 1)
      (early_return_run returns 1000 (throws other_value) 150) = Some w /\
    threads w !! 0%nat = Some (Caller Idle) /\
    threads w !! 2%nat =
      Some (Spawned {| job := throws other_value; delay := 150;
                       admitted_at := 1000; started := 1000; wpc := L62 |}).
Proof.
  split; [lia|]. split; [reflexivity|].
  destruct (wait_can_return_before_a_job_runs 2 callback two_slots
              returns 1000 (throws other_value) 150)
    as (w & Hrun & Hth & _); [lia|reflexivity|].
  exists w. split; [exact Hrun|]. rewrite Hth. split; reflexivity.
Defined.

(** ** [main] *)

(** X12: whatever the interleaving, and at every moment of a run of
    [main], the error callback has been called at most twice: at most
    once by the thread of the second job, with the text [Unknown] for the
    [const char*] it throws, and at most once by the thread of the third
    job, with the text [err] of its [std::out_of_range]. *)
Theorem main_reports_at_most_two_failures tr w :
  run_of_main tr w -> reported w ⊆+ main_failures.
Proof.
  intros Hrun.
  assert (forall t, t <> 2%nat -> t <> 3%nat -> reports_in t (reported w) = [])
    as Hother.
  { intros t H2 H3. destruct (main_reports_of tr w t Hrun) as [H|[[? _]|[? _]]]; done. }
  rewrite (reports_split _ Hother). unfold main_failures.
  destruct (main_reports_of tr w 2%nat Hrun) as [H2|[[_ H2]|[? _]]]; [| |done];
    destruct (main_reports_of tr w 3%nat Hrun) as [H3|[[? _]|[_ H3]]]; try done;
    unfold reports_of in H2, H3; rewrite H2, H3; simpl.
  - apply submseteq_nil_l.
  - apply submseteq_cons. reflexivity.
  - apply submseteq_skip. apply submseteq_nil_l.
  - reflexivity.
Qed.

Lemma main_reports_at_most_two_failures_witness :
  exists w, run_of_main main_run w /\ reported w ⊆+ main_failures.
Proof.
  destruct (exec (boot two_slots 1) main_run) as [w|] eqn:Hw;
    [|vm_compute in Hw; discriminate].
  assert (run_of_main main_run w) as Hrun
      by (split; [exact Hw | exists []; reflexivity]).
  exists w. split; [exact Hrun|].
  exact (main_reports_at_most_two_failures _ _ Hrun).
Defined.

(** X13: in a run of [main] that divides no update of the counter, the
    five jobs are admitted no earlier than 0, 0, 150, 1000 and 1100 ms
    after the start (the third needs one of the first two to be over,
    the fourth two of the first three, the fifth three of the first
    four), and the operation of each is not called before its delay has
    passed on top of that: not before 1650 ms for the third, 1100 ms for
    the fourth, 4100 ms for the fifth. *)
Theorem main_admission_times tr w t k :
  run_of_main tr w -> undivided_run (boot two_slots 1) tr ->
  threads w !! S t = Some (Spawned k) ->
  exists f,
    main_admission_floor !! t = Some f /\ f <= admitted_at k /\
    submissions main_calls !! t = Some (job k, delay k) /\
    (wpc k <> L62 -> f + delay k <= clock w).
Proof.
  intros Hrun Hund Hk.
  destruct (main_table _ _ Hrun) as (pc & ks & Hth & _ & Hpre).
  pose proof (main_admissions _ _ Hrun Hund _ _ Hth) as Hadm.
  destruct Hrun as [Hex _].
  pose proof (time_inv_reachable _ _ _ (exec_reachable _ _ _ _ Hex) _ _ Hk)
    as (Ha & _ & Hd). simpl in Ha, Hd.
  rewrite Hth in Hk. simpl in Hk. rewrite list_lookup_fmap in Hk.
  destruct (ks !! t) as [k'|] eqn:Hkt; [|discriminate]. simpl in Hk.
  injection Hk as ->.
  destruct (Hadm t (admitted_at k)) as (f & Hf & Hle).
  { apply lookup_app_l_Some. by rewrite list_lookup_fmap, Hkt. }
  exists f. split; [exact Hf|]. split; [exact Hle|]. split.
  - eapply prefix_lookup_Some; [|exact Hpre].
    by rewrite list_lookup_fmap, Hkt.
  - intros Hpc. specialize (Hd Hpc). lia.
Qed.

Lemma main_admission_times_witness :
  exists w k,
    run_of_main main_run w /\ threads w !! 5%nat = Some (Spawned k) /\
    1100 <= admitted_at k /\ 1100 + delay k <= clock w.
Proof.
  destruct (exec (boot two_slots 1) main_run) as [w|] eqn:Hw;
    [|vm_compute in Hw; discriminate].
  assert (run_of_main main_run w) as Hrun
      by (split; [exact Hw | exists []; reflexivity]).
  vm_compute in Hw. injection Hw as <-.
  eexists _, _. split; [exact Hrun|]. split; [reflexivity|].
  destruct (main_admission_times main_run _ 4%nat _ Hrun
              ltac:(apply undivided_runb_ok; vm_compute; reflexivity) eq_refl)
    as (f & [= <-] & Hle & _ & Hd).
  split; [exact Hle|]. apply Hd. discriminate.
Defined.

(** X14: when [main] is over in a run that divides no update of the
    counter, the counter is zero, each of the five jobs has a thread
    that has run to its end, the callback has been called exactly twice,
    with [Unknown] by the thread of the second job and with [err] by the
    thread of the third, and at least 4100 ms have passed since the
    start, which is the least the number printed at line 128 can be. *)
Theorem main_ends_with_both_failures_reported tr w :
  run_of_main tr w -> undivided_run (boot two_slots 1) tr -> main_is_over tr w ->
  countJobs (this w) = 0 /\
  (exists ks,
     threads w = Caller Idle :: (Spawned <$> ks) /\
     captured <$> ks = submissions main_calls /\
     forall k, k ∈ ks -> wpc k = Finished) /\
  reported w ≡ₚ main_failures /\
  4100 <= clock w.
Proof.
  intros Hrun Hund Hover.
  destruct (main_end_state _ _ Hrun Hund Hover) as (Hz & (ks & Hth & Hcap & Hfin) & Hrep).
  split; [exact Hz|]. split; [by exists ks|]. split; [exact Hrep|].
  pose proof (main_admissions _ _ Hrun Hund _ _ Hth) as Hadm.
  simpl in Hadm. rewrite app_nil_r in Hadm.
  destruct Hrun as [Hex _].
  assert (reachable two_slots 1 w) as Hr by (eapply exec_reachable; exact Hex).
  destruct ks as [|k1 [|k2 [|k3 [|k4 [|k5 ks]]]]]; simplify_eq/=.
  destruct (Hadm 4%nat (admitted_at k5) eq_refl) as (f & [= <-] & Hf).
  assert (threads w !! 5%nat = Some (Spawned k5)) as Hk by (by rewrite Hth).
  pose proof (finished_after_delay _ _ _ _ _ Hr Hk
                (Hfin k5 ltac:(repeat constructor))) as Hd.
  unfold captured in *. simplify_eq. lia.
Qed.

Lemma main_ends_with_both_failures_reported_witness :
  exists w,
    run_of_main main_run w /\ main_is_over main_run w /\
    reported w ≡ₚ main_failures /\ 4100 <= clock w /\ clock w = 4100.
Proof.
  destruct (exec (boot two_slots 1) main_run) as [w|] eqn:Hw;
    [|vm_compute in Hw; discriminate].
  assert (run_of_main main_run w) as Hrun
      by (split; [exact Hw | exists []; reflexivity]).
  vm_compute in Hw. injection Hw as <-.
  eexists. split; [exact Hrun|].
  assert (main_is_over main_run
            {| this := two_slots;
               threads :=
                 [Caller Idle;
                  Spawned {| job := returns; delay := 1000; admitted_at := 0;
                             started := 0; wpc := Finished |};
                  Spawned {| job := throws other_value; delay := 150;
                             admitted_at := 0; started := 0; wpc := Finished |};
                  Spawned {| job := throws (std_exception "err"); delay := 1500;
                             admitted_at := 150; started := 150;
                             wpc := Finished |};
                  Spawned {| job := returns; delay := 100; admitted_at := 1000;
                             started := 1000; wpc := Finished |};
                  Spawned {| job := returns; delay := 3000; admitted_at := 1100;
                             started := 1100; wpc := Finished |}];
               clock := 4100;
               reported := main_failures |}) as Hover by (split; reflexivity).
  split; [exact Hover|].
  destruct (main_ends_with_both_failures_reported _ _ Hrun
              ltac:(apply undivided_runb_ok; vm_compute; reflexivity) Hover)
    as (_ & _ & Hrep & Hclk).
  split; [exact Hrep|]. split; [exact Hclk|reflexivity].
Defined.

(** ** A scheduler with one slot *)


